(** * pid-ref: the C++ PID controller, its measurement filter, the ZOH
      discretizer and the anti-windup rule

    A shallow embedding of [cpp_pid/zoh_pid.cpp], [cpp_pid/anti_windup.cpp],
    [cpp_pid/measurement_filter.cpp] and [cpp_pid/pid.cpp].

    Numbers.  The C++ code computes on [double].  Here a [double] is a real
    number ([R]) and the arithmetic is exact: rounding, overflow, signed
    zeros and the values NaN and infinity are outside the model, and so is
    what a division by zero returns in C++: a statement below that bounds
    or orders a returned signal carries [Tx <> 0] and [TfTs <> 0], the
    two divisors of the code, as hypotheses, and what the code returns at
    a zero divisor is settled on binary64 floats in [Module Ieee].  The
    one place where
    the code itself relies on NaN is the "unset" sentinel of [Tx_old_];
    that field is an [option R], [None] standing for the quiet NaN, and
    the comparison [Tx != Tx_old_] is true against [None] as it is against
    NaN.  [exp] is the exponential of the real numbers.

    Objects.  A C++ object is a record; a member function that mutates the
    object returns the new record next to its result. *)

From Stdlib Require Import Reals Lra Lia Factorial List Bool.
From Stdlib Require String Ascii.
From Stdlib Require Floats.
Import ListNotations.

Open Scope R_scope.

(* ================================================================== *)
(** * <algorithm>: std::max and std::min on double *)

Module Std.

(** [std::max(a, b)] is [(a < b) ? b : a]. *)
Definition max (a b : R) : R := if Rlt_dec a b then b else a.

(** [std::min(a, b)] is [(b < a) ? b : a]. *)
Definition min (a b : R) : R := if Rlt_dec b a then b else a.

End Std.

(* ================================================================== *)
(** * anti_windup.h / anti_windup.cpp *)

Inductive WindupMode : Set := NONE | UPPER | LOWER | BOTH.

Definition WindupMode_eqb (a b : WindupMode) : bool :=
  match a, b with
  | NONE, NONE | UPPER, UPPER | LOWER, LOWER | BOTH, BOTH => true
  | _, _ => false
  end.

(** [double anti_windup(double Dui, WindupMode windup)]: the parameter
    [Dui] is reassigned by each of the two [if] statements in turn. *)
Definition anti_windup (Dui : R) (windup : WindupMode) : R :=
  let Dui :=
    if WindupMode_eqb windup BOTH || WindupMode_eqb windup LOWER
    then Std.max Dui 0 else Dui in
  let Dui :=
    if WindupMode_eqb windup BOTH || WindupMode_eqb windup UPPER
    then Std.min Dui 0 else Dui in
  Dui.

(** The same two clauses fired in the other order: the upper clause first,
    the lower clause second.  Used to state that the order of the clauses
    is immaterial. *)
Definition anti_windup_swapped (Dui : R) (windup : WindupMode) : R :=
  let Dui :=
    if WindupMode_eqb windup BOTH || WindupMode_eqb windup UPPER
    then Std.min Dui 0 else Dui in
  let Dui :=
    if WindupMode_eqb windup BOTH || WindupMode_eqb windup LOWER
    then Std.max Dui 0 else Dui in
  Dui.

(* ================================================================== *)
(** * zoh_pid.h / zoh_pid.cpp *)

Record FilterParams : Type := mkFilterParams {
  a11 : R;
  a12 : R;
  a21 : R;
  a22 : R;
  b1 : R;
  b2 : R
}.

(** [FilterParams zoh_Fy(double TfTs, double Tx)]. *)
Definition zoh_Fy (TfTs Tx : R) : FilterParams :=
  (* Help variables *)
  let h1 := Tx / TfTs in
  let h2 := exp (- h1) in
  let h3 := h1 * h2 in
  let h4 := h3 / TfTs in
  (* Filter parameters *)
  {| a11 := h2 + h3;
     a12 := h2;
     a21 := - h4;
     a22 := h2 - h3;
     b1 := 1 - h2 - h3;
     b2 := h4 |}.

(** The six coefficients as the specification writes them, with the help
    variables substituted away. *)
Definition zoh_Fy_spec (TfTs Tx : R) : FilterParams :=
  {| a11 := exp (- (Tx / TfTs)) + Tx / TfTs * exp (- (Tx / TfTs));
     a12 := exp (- (Tx / TfTs));
     a21 := - (Tx / TfTs * exp (- (Tx / TfTs)) / TfTs);
     a22 := exp (- (Tx / TfTs)) - Tx / TfTs * exp (- (Tx / TfTs));
     b1 := 1 - exp (- (Tx / TfTs)) - Tx / TfTs * exp (- (Tx / TfTs));
     b2 := Tx / TfTs * exp (- (Tx / TfTs)) / TfTs |}.

(** [x] agrees with the decimal [d] to within [tol]. *)
Definition approx (x d tol : R) : Prop := Rabs (x - d) <= tol.

(* ================================================================== *)
(** * measurement_filter.h / measurement_filter.cpp *)

Record FilterOutput : Type := mkFilterOutput {
  yf : R;   (* Filtered output *)
  dyf : R   (* Filtered derivative *)
}.

Module MeasurementFilter.

(** The private members of [class MeasurementFilter]. *)
Record t : Type := mk {
  TfTs_ : R;
  a11_ : R;
  a12_ : R;
  a21_ : R;
  a22_ : R;
  b1_ : R;
  b2_ : R;
  yf_ : R;
  dyf_ : R;
  Tx_old_ : option R;    (* [None] is the quiet NaN *)
  initialized_ : bool
}.

(** [MeasurementFilter::MeasurementFilter(double TfTs)]. *)
Definition new (TfTs : R) : t :=
  {| TfTs_ := TfTs;
     a11_ := 0; a12_ := 0; a21_ := 0; a22_ := 0; b1_ := 0; b2_ := 0;
     yf_ := 0; dyf_ := 0;
     Tx_old_ := None;
     initialized_ := false |}.

(** [Tx != Tx_old_] on doubles: always true against NaN. *)
Definition ne (Tx : R) (Tx_old : option R) : bool :=
  match Tx_old with
  | None => true
  | Some t' => if Req_dec_T Tx t' then false else true
  end.

(** The cached coefficients, read as a [FilterParams]. *)
Definition params (f : t) : FilterParams :=
  {| a11 := a11_ f; a12 := a12_ f; a21 := a21_ f; a22 := a22_ f;
     b1 := b1_ f; b2 := b2_ f |}.

(** The body of the [if] of [operator()]: the six assignments from
    [params] and [initialized_ = true]. *)
Definition rediscretize (f : t) (p : FilterParams) : t :=
  {| TfTs_ := TfTs_ f;
     a11_ := a11 p; a12_ := a12 p; a21_ := a21 p; a22_ := a22 p;
     b1_ := b1 p; b2_ := b2 p;
     yf_ := yf_ f; dyf_ := dyf_ f;
     Tx_old_ := Tx_old_ f;
     initialized_ := true |}.

(** The state update of [operator()]: [Tx_old_], [yf_] and [dyf_] are
    assigned; [dyf_] is computed from the old [dyf_] and from [yf_prev]. *)
Definition update (f : t) (y Tx : R) : t :=
  let yf_prev := yf_ f in
  {| TfTs_ := TfTs_ f;
     a11_ := a11_ f; a12_ := a12_ f; a21_ := a21_ f; a22_ := a22_ f;
     b1_ := b1_ f; b2_ := b2_ f;
     yf_ := a11_ f * yf_prev + a12_ f * dyf_ f + b1_ f * y;
     dyf_ := a21_ f * yf_prev + a22_ f * dyf_ f + b2_ f * y;
     Tx_old_ := Some Tx;
     initialized_ := initialized_ f |}.

(** What one call of [operator()] does: the value returned, the object
    afterwards, and the calls it made to the discretizer, each recorded
    with its arguments [(TfTs, Tx)]. *)
Record result : Type := mkResult {
  output : FilterOutput;
  state : t;
  zoh_calls : list (R * R)
}.

(** [FilterOutput MeasurementFilter::operator()(double y, double Tx)]. *)
Definition call (f : t) (y Tx : R) : result :=
  (* Rediscretize to match execution period *)
  let '(f, calls) :=
    if negb (initialized_ f) || ne Tx (Tx_old_ f)
    then (rediscretize f (zoh_Fy (TfTs_ f) Tx), [(TfTs_ f, Tx)])
    else (f, []) in
  (* State update *)
  let f := update f y Tx in
  {| output := {| yf := yf_ f; dyf := dyf_ f |};
     state := f;
     zoh_calls := calls |}.

(** [void MeasurementFilter::reset()]. *)
Definition reset (f : t) : t :=
  {| TfTs_ := TfTs_ f;
     a11_ := a11_ f; a12_ := a12_ f; a21_ := a21_ f; a22_ := a22_ f;
     b1_ := b1_ f; b2_ := b2_ f;
     yf_ := 0;
     dyf_ := 0;
     Tx_old_ := None;
     initialized_ := false |}.

(** The filters a program can hold: built by the constructor and then
    only touched through [operator()] and [reset()] (all members are
    private). *)
Inductive reachable (TfTs : R) : t -> Prop :=
| reach_new : reachable TfTs (new TfTs)
| reach_call (f : t) (y Tx : R) :
    reachable TfTs f -> reachable TfTs (state (call f y Tx))
| reach_reset (f : t) :
    reachable TfTs f -> reachable TfTs (reset f).

(** The cache invariant: an initialized filter holds the coefficients
    of the execution period it last ran with. *)
Definition cache_valid (f : t) : Prop :=
  initialized_ f = true ->
  exists Tx, Tx_old_ f = Some Tx /\ params f = zoh_Fy (TfTs_ f) Tx.

(** Two filters that behave alike from now on: the same time constant,
    state and bookkeeping, and the same coefficients once these are in
    use (those of an uninitialized filter are overwritten before they
    are read). *)
Definition alike (f g : t) : Prop :=
  TfTs_ f = TfTs_ g /\ yf_ f = yf_ g /\ dyf_ f = dyf_ g /\
  Tx_old_ f = Tx_old_ g /\ initialized_ f = initialized_ g /\
  (initialized_ f = true -> params f = params g).

End MeasurementFilter.

(* ================================================================== *)
(** * pid.h / pid.cpp *)

(** The arguments of one call of [PIDController::operator()], one control
    tick.  The C++ defaults are [uff = uman = utrack = 0], [Tx = 1],
    [track = false], [auto_mode = true], [windup = NONE]. *)
Module Tick.

Record t : Type := mk {
  r : R;
  y : R;
  uff : R;
  uman : R;
  utrack : R;
  Tx : R;
  track : bool;
  auto_mode : bool;
  windup : WindupMode
}.

End Tick.

Module PIDController.

(** The private members of [class PIDController]. *)
Record t : Type := mk {
  (* Controller parameters *)
  kp_ : R;
  ki_ : R;
  kd_ : R;
  umin_ : R;
  umax_ : R;
  u0_ : R;
  b_ : R;
  (* Signal states *)
  u_old_ : R;
  up_old_ : R;
  ud_old_ : R;
  uff_old_ : R;
  (* Measurement filter *)
  filter_ : MeasurementFilter.t
}.

(** [PIDController::PIDController(kp, ki, kd, TfTs, umin, umax, u0, b)]. *)
Definition new (kp ki kd TfTs umin umax u0 b : R) : t :=
  {| kp_ := kp; ki_ := ki; kd_ := kd;
     umin_ := umin; umax_ := umax; u0_ := u0; b_ := b;
     u_old_ := 0; up_old_ := 0; ud_old_ := 0; uff_old_ := 0;
     filter_ := MeasurementFilter.new TfTs |}.

(** Assignment to the member [filter_]. *)
Definition set_filter (c : t) (f : MeasurementFilter.t) : t :=
  {| kp_ := kp_ c; ki_ := ki_ c; kd_ := kd_ c;
     umin_ := umin_ c; umax_ := umax_ c; u0_ := u0_ c; b_ := b_ c;
     u_old_ := u_old_ c; up_old_ := up_old_ c; ud_old_ := ud_old_ c;
     uff_old_ := uff_old_ c;
     filter_ := f |}.

(** Assignment to the member [b_]. *)
Definition set_b (c : t) (b : R) : t :=
  {| kp_ := kp_ c; ki_ := ki_ c; kd_ := kd_ c;
     umin_ := umin_ c; umax_ := umax_ c; u0_ := u0_ c; b_ := b;
     u_old_ := u_old_ c; up_old_ := up_old_ c; ud_old_ := ud_old_ c;
     uff_old_ := uff_old_ c;
     filter_ := filter_ c |}.

(** Assignment to the four signal states [u_old_], [up_old_], [ud_old_]
    and [uff_old_], which the code always assigns together. *)
Definition set_old (c : t) (u_old up_old ud_old uff_old : R) : t :=
  {| kp_ := kp_ c; ki_ := ki_ c; kd_ := kd_ c;
     umin_ := umin_ c; umax_ := umax_ c; u0_ := u0_ c; b_ := b_ c;
     u_old_ := u_old; up_old_ := up_old; ud_old_ := ud_old;
     uff_old_ := uff_old;
     filter_ := filter_ c |}.

(** The [if (ki_ == 0.0)] block: reset state if using P or PD control. *)
Definition p_or_pd_reset (c : t) : t :=
  if Req_dec_T (ki_ c) 0
  then set_b (set_old c (u0_ c) 0 0 0) 1
  else c.

(** The [if (track)] block: tracking mode for bumpless transfer. *)
Definition tracking (c : t) (track : bool) (utrack : R) : t :=
  if track then set_old c utrack 0 0 0 else c.

(** The value of [u] before the saturation line, with the object as the
    branch taken leaves it.  [yf] and [dyf] are this tick's filter
    outputs. *)
Definition unsaturated (c : t) (yf dyf r uff uman utrack Tx : R)
    (track auto_mode : bool) (windup : WindupMode) : R * t :=
  if auto_mode then
    let c := p_or_pd_reset c in
    let c := tracking c track utrack in
    (* Control signal increments *)
    let Dup := kp_ c * (b_ c * r - yf) - up_old_ c in
    let Dui := ki_ c * (r - yf) * Tx in
    let Dui := anti_windup Dui windup in
    let Dud := (- kd_ c * dyf - ud_old_ c) / Tx in
    let Duff := uff - uff_old_ c in
    (* Add control signal increment *)
    let Du := Dup + Dui + Dud + Duff in
    (u_old_ c + Du, c)
  else
    (* Manual control signal *)
    (uman, c).

(** [double PIDController::operator()(r, y, uff, uman, utrack, Tx, track,
    auto_mode, windup)]: the control signal returned and the object
    afterwards. *)
Definition call (c : t) (r y uff uman utrack Tx : R)
    (track auto_mode : bool) (windup : WindupMode) : R * t :=
  (* Filter updates *)
  let filtered := MeasurementFilter.call (filter_ c) y Tx in
  let c := set_filter c (MeasurementFilter.state filtered) in
  let yf := yf (MeasurementFilter.output filtered) in
  let dyf := dyf (MeasurementFilter.output filtered) in
  let '(u, c) :=
    unsaturated c yf dyf r uff uman utrack Tx track auto_mode windup in
  (* Saturate control signal *)
  let u := Std.max (Std.min u (umax_ c)) (umin_ c) in
  (* Update old signal states *)
  let c := set_old c u (kp_ c * (b_ c * r - yf)) (- kd_ c * dyf) uff in
  (u, c).

(** [void PIDController::reset()]. *)
Definition reset (c : t) : t :=
  set_filter (set_old c 0 0 0 0) (MeasurementFilter.reset (filter_ c)).

(** One tick, with the arguments packed. *)
Definition step (c : t) (i : Tick.t) : R * t :=
  call c (Tick.r i) (Tick.y i) (Tick.uff i) (Tick.uman i) (Tick.utrack i)
    (Tick.Tx i) (Tick.track i) (Tick.auto_mode i) (Tick.windup i).

(** A sequence of ticks on one object: the control signals returned, in
    order, and the object afterwards. *)
Fixpoint run (c : t) (s : list Tick.t) : list R * t :=
  match s with
  | [] => ([], c)
  | i :: s' =>
      let '(u, c1) := step c i in
      let '(us, c2) := run c1 s' in
      (u :: us, c2)
  end.

(** Two controllers that return the same control signals from now on:
    the same gains, bounds and bias, filters that behave alike, the same
    [u_old_], [ud_old_] and [uff_old_]; and, when there is integral
    action, the same setpoint weight and [up_old_] (without integral
    action both are overwritten before an automatic tick reads them). *)
Definition alike (c d : t) : Prop :=
  kp_ c = kp_ d /\ ki_ c = ki_ d /\ kd_ c = kd_ d /\
  umin_ c = umin_ d /\ umax_ c = umax_ d /\ u0_ c = u0_ d /\
  u_old_ c = u_old_ d /\ ud_old_ c = ud_old_ d /\
  uff_old_ c = uff_old_ d /\
  MeasurementFilter.alike (filter_ c) (filter_ d) /\
  (ki_ c <> 0 -> b_ c = b_ d /\ up_old_ c = up_old_ d).

(** What a sequence of ticks leaves of the configuration: the gains, the
    bounds, the bias and the filter's time constant, and the setpoint
    weight when there is integral action. *)
Definition same_config (c d : t) : Prop :=
  kp_ c = kp_ d /\ ki_ c = ki_ d /\ kd_ c = kd_ d /\
  umin_ c = umin_ d /\ umax_ c = umax_ d /\ u0_ c = u0_ d /\
  MeasurementFilter.TfTs_ (filter_ c) = MeasurementFilter.TfTs_ (filter_ d)
  /\ (ki_ c <> 0 -> b_ c = b_ d).

End PIDController.

(** [clamp(u, umin, umax)] of the specification, with the maximum and
    minimum of the real numbers. *)
Definition clamp (u umin umax : R) : R := Rmax (Rmin u umax) umin.

(* ================================================================== *)
(** * Sequences of filter calls *)

Module FilterRun.

Import MeasurementFilter.

(** A sequence of calls of [operator()] on one filter, each call given as
    [(y, Tx)]: the outputs in order, the filter afterwards, and the calls
    made to the discretizer, in order. *)
Fixpoint run (f : t) (l : list (R * R))
    : list FilterOutput * t * list (R * R) :=
  match l with
  | [] => ([], f, [])
  | (y, Tx) :: l' =>
      let res := call f y Tx in
      let '(outs, f', calls) := run (state res) l' in
      (output res :: outs, f', zoh_calls res ++ calls)
  end.

(** The execution periods of a sequence that differ from the one before
    them, [prev] being the period before the first. *)
Fixpoint changes_from (prev : R) (txs : list R) : list R :=
  match txs with
  | [] => []
  | Tx :: rest =>
      (if Req_dec_T Tx prev then [] else [Tx]) ++ changes_from Tx rest
  end.

(** The first execution period of a sequence and every later one that
    differs from its predecessor. *)
Definition block_heads (txs : list R) : list R :=
  match txs with
  | [] => []
  | Tx :: rest => Tx :: changes_from Tx rest
  end.

(** The filter [h] is the combination [alpha * f + beta * g] of two
    filters that share its time constant, bookkeeping and (once in use)
    coefficients. *)
Definition combines (alpha beta : R) (f g h : t) : Prop :=
  TfTs_ f = TfTs_ h /\ TfTs_ g = TfTs_ h /\
  Tx_old_ f = Tx_old_ h /\ Tx_old_ g = Tx_old_ h /\
  initialized_ f = initialized_ h /\ initialized_ g = initialized_ h /\
  (initialized_ h = true -> params f = params h /\ params g = params h) /\
  yf_ h = alpha * yf_ f + beta * yf_ g /\
  dyf_ h = alpha * dyf_ f + beta * dyf_ g.

End FilterRun.

(* ================================================================== *)
(** * Quantities of the controller used in the statements *)

Module Terms.

Import PIDController.

(** What the control signal holds beyond the stored proportional,
    derivative and feedforward terms: the part accumulated by the
    increments. *)
Definition accumulated (c : t) : R :=
  u_old_ c - up_old_ c - ud_old_ c - uff_old_ c.

(** Two controllers with the same parameters, the setpoint weight
    included, and filters that behave alike; the four signal states are
    left free. *)
Definition same_setup (c d : t) : Prop :=
  kp_ c = kp_ d /\ ki_ c = ki_ d /\ kd_ c = kd_ d /\
  umin_ c = umin_ d /\ umax_ c = umax_ d /\ u0_ c = u0_ d /\
  b_ c = b_ d /\
  MeasurementFilter.alike (filter_ c) (filter_ d).

(** The last control signal of a sequence, [d] when there is none. *)
Definition last_signal (us : list R) (d : R) : R := last us d.

End Terms.

(* ================================================================== *)
(** * tests/test_cpp_pid.cpp: parse_bool *)

Module Harness.

Import Ascii String.

(** [::tolower] of <cctype> in the "C" locale, on a [char] read as its
    byte: the letters [A]..[Z] (65..90) are moved to [a]..[z], every
    other byte is returned as it is. *)
Definition tolower (c : Ascii.ascii) : Ascii.ascii :=
  let n := Ascii.nat_of_ascii c in
  if Nat.leb 65 n && Nat.leb n 90 then Ascii.ascii_of_nat (n + 32) else c.

(** [std::transform(s.begin(), s.end(), s.begin(), f)]. *)
Fixpoint transform (f : Ascii.ascii -> Ascii.ascii) (s : String.string)
    : String.string :=
  match s with
  | String.EmptyString => String.EmptyString
  | String.String c s' => String.String (f c) (transform f s')
  end.

(** [bool parse_bool(const std::string& str)]. *)
Definition parse_bool (str : String.string) : bool :=
  let lower := transform tolower str in
  String.eqb lower "true".

(** [c] is the letter [l] in lower or upper case; [l] and [u] are the two
    cases. *)
Definition either_case (l u c : Ascii.ascii) : Prop := c = l \/ c = u.

End Harness.

(* ================================================================== *)
(** * The same code on IEEE 754 binary64

    The real-number model above has no NaN, and its division is total.
    Where a statement turns on what the code returns when it divides by
    zero, the code is read here on the kernel's binary64 floats, whose
    operations are those of the C++ [double] (each operation rounded on
    its own; [0/0] and [inf*0] are NaN, every comparison with NaN is
    false).  [exp] of <cmath> is not part of the repository: it is a
    parameter of [zoh_Fy] and of the calls that reach it, and the
    statements about this model hold for every function in its place.
    (A compiler that fuses a product with the sum that follows changes
    roundings, not which results are NaN.) *)

Module Ieee.

Import Floats.
Local Open Scope float_scope.

(** [std::max(a, b)] is [(a < b) ? b : a]. *)
Definition max (a b : float) : float := if a <? b then b else a.

(** [std::min(a, b)] is [(b < a) ? b : a]. *)
Definition min (a b : float) : float := if b <? a then b else a.

(** [double anti_windup(double Dui, WindupMode windup)]. *)
Definition anti_windup (Dui : float) (windup : WindupMode) : float :=
  let Dui :=
    if WindupMode_eqb windup BOTH || WindupMode_eqb windup LOWER
    then max Dui 0 else Dui in
  let Dui :=
    if WindupMode_eqb windup BOTH || WindupMode_eqb windup UPPER
    then min Dui 0 else Dui in
  Dui.

Record FilterParams : Type := mkFilterParams {
  a11 : float;
  a12 : float;
  a21 : float;
  a22 : float;
  b1 : float;
  b2 : float
}.

(** [FilterParams zoh_Fy(double TfTs, double Tx)]. *)
Definition zoh_Fy (exp : float -> float) (TfTs Tx : float) : FilterParams :=
  (* Help variables *)
  let h1 := Tx / TfTs in
  let h2 := exp (- h1) in
  let h3 := h1 * h2 in
  let h4 := h3 / TfTs in
  (* Filter parameters *)
  {| a11 := h2 + h3;
     a12 := h2;
     a21 := - h4;
     a22 := h2 - h3;
     b1 := 1 - h2 - h3;
     b2 := h4 |}.

Record FilterOutput : Type := mkFilterOutput {
  yf : float;
  dyf : float
}.

Module MeasurementFilter.

Record t : Type := mk {
  TfTs_ : float;
  a11_ : float;
  a12_ : float;
  a21_ : float;
  a22_ : float;
  b1_ : float;
  b2_ : float;
  yf_ : float;
  dyf_ : float;
  Tx_old_ : float;
  initialized_ : bool
}.

(** [MeasurementFilter::MeasurementFilter(double TfTs)]. *)
Definition new (TfTs : float) : t :=
  {| TfTs_ := TfTs;
     a11_ := 0; a12_ := 0; a21_ := 0; a22_ := 0; b1_ := 0; b2_ := 0;
     yf_ := 0; dyf_ := 0;
     Tx_old_ := nan;
     initialized_ := false |}.

(** [FilterOutput MeasurementFilter::operator()(double y, double Tx)];
    [Tx != Tx_old_] is the negation of [Tx == Tx_old_]. *)
Definition call (exp : float -> float) (f : t) (y Tx : float)
    : FilterOutput * t :=
  (* Rediscretize to match execution period *)
  let f :=
    if negb (initialized_ f) || negb (Tx =? Tx_old_ f)
    then
      let params := zoh_Fy exp (TfTs_ f) Tx in
      {| TfTs_ := TfTs_ f;
         a11_ := a11 params; a12_ := a12 params;
         a21_ := a21 params; a22_ := a22 params;
         b1_ := b1 params; b2_ := b2 params;
         yf_ := yf_ f; dyf_ := dyf_ f;
         Tx_old_ := Tx_old_ f;
         initialized_ := true |}
    else f in
  (* State update *)
  let yf_prev := yf_ f in
  let f :=
    {| TfTs_ := TfTs_ f;
       a11_ := a11_ f; a12_ := a12_ f; a21_ := a21_ f; a22_ := a22_ f;
       b1_ := b1_ f; b2_ := b2_ f;
       yf_ := a11_ f * yf_prev + a12_ f * dyf_ f + b1_ f * y;
       dyf_ := a21_ f * yf_prev + a22_ f * dyf_ f + b2_ f * y;
       Tx_old_ := Tx;
       initialized_ := initialized_ f |} in
  ({| yf := yf_ f; dyf := dyf_ f |}, f).

End MeasurementFilter.

Module PIDController.

Record t : Type := mk {
  kp_ : float;
  ki_ : float;
  kd_ : float;
  umin_ : float;
  umax_ : float;
  u0_ : float;
  b_ : float;
  u_old_ : float;
  up_old_ : float;
  ud_old_ : float;
  uff_old_ : float;
  filter_ : MeasurementFilter.t
}.

(** [PIDController::PIDController(kp, ki, kd, TfTs, umin, umax, u0, b)]. *)
Definition new (kp ki kd TfTs umin umax u0 b : float) : t :=
  {| kp_ := kp; ki_ := ki; kd_ := kd;
     umin_ := umin; umax_ := umax; u0_ := u0; b_ := b;
     u_old_ := 0; up_old_ := 0; ud_old_ := 0; uff_old_ := 0;
     filter_ := MeasurementFilter.new TfTs |}.

(** Assignment to [b_]. *)
Definition set_b (c : t) (b : float) : t :=
  {| kp_ := kp_ c; ki_ := ki_ c; kd_ := kd_ c;
     umin_ := umin_ c; umax_ := umax_ c; u0_ := u0_ c; b_ := b;
     u_old_ := u_old_ c; up_old_ := up_old_ c; ud_old_ := ud_old_ c;
     uff_old_ := uff_old_ c;
     filter_ := filter_ c |}.

(** Assignment to the four signal states. *)
Definition set_old (c : t) (u_old up_old ud_old uff_old : float) : t :=
  {| kp_ := kp_ c; ki_ := ki_ c; kd_ := kd_ c;
     umin_ := umin_ c; umax_ := umax_ c; u0_ := u0_ c; b_ := b_ c;
     u_old_ := u_old; up_old_ := up_old; ud_old_ := ud_old;
     uff_old_ := uff_old;
     filter_ := filter_ c |}.

(** Assignment to [filter_]. *)
Definition set_filter (c : t) (f : MeasurementFilter.t) : t :=
  {| kp_ := kp_ c; ki_ := ki_ c; kd_ := kd_ c;
     umin_ := umin_ c; umax_ := umax_ c; u0_ := u0_ c; b_ := b_ c;
     u_old_ := u_old_ c; up_old_ := up_old_ c; ud_old_ := ud_old_ c;
     uff_old_ := uff_old_ c;
     filter_ := f |}.

(** [double PIDController::operator()(r, y, uff, uman, utrack, Tx, track,
    auto_mode, windup)]. *)
Definition call (exp : float -> float) (c : t)
    (r y uff uman utrack Tx : float) (track auto_mode : bool)
    (windup : WindupMode) : float * t :=
  (* Filter updates *)
  let filtered := MeasurementFilter.call exp (filter_ c) y Tx in
  let c := set_filter c (snd filtered) in
  let yf := yf (fst filtered) in
  let dyf := dyf (fst filtered) in
  let '(u, c) :=
    if auto_mode then
      (* Reset state if using P or PD control (ki == 0) *)
      let c := if ki_ c =? 0 then set_b (set_old c (u0_ c) 0 0 0) 1
               else c in
      (* Tracking mode for bumpless transfer *)
      let c := if track then set_old c utrack 0 0 0 else c in
      (* Control signal increments *)
      let Dup := kp_ c * (b_ c * r - yf) - up_old_ c in
      let Dui := ki_ c * (r - yf) * Tx in
      let Dui := anti_windup Dui windup in
      let Dud := (- kd_ c * dyf - ud_old_ c) / Tx in
      let Duff := uff - uff_old_ c in
      (* Add control signal increment *)
      let Du := Dup + Dui + Dud + Duff in
      (u_old_ c + Du, c)
    else
      (* Manual control signal *)
      (uman, c) in
  (* Saturate control signal *)
  let u := max (min u (umax_ c)) (umin_ c) in
  (* Update old signal states *)
  let c := set_old c u (kp_ c * (b_ c * r - yf)) (- kd_ c * dyf) uff in
  (u, c).

End PIDController.

End Ieee.

(* ================================================================== *)
(** * Proof automation *)

(** Splits the conjunctions that are written out in the goal, without
    unfolding a definition to find more. *)
Ltac split_conjs :=
  repeat match goal with |- _ /\ _ => split end.

(* ================================================================== *)
(** * Lemmas on std::max, std::min and the saturation line *)

Lemma std_max_Rmax (a b : R) : Std.max a b = Rmax a b.
Proof.
  unfold Std.max, Rmax.
  destruct (Rlt_dec a b), (Rle_dec a b); lra.
Qed.

Lemma std_min_Rmin (a b : R) : Std.min a b = Rmin a b.
Proof.
  unfold Std.min, Rmin.
  destruct (Rlt_dec b a), (Rle_dec a b); lra.
Qed.

Lemma saturate_clamp (u umin umax : R) :
  Std.max (Std.min u umax) umin = clamp u umin umax.
Proof.
  unfold clamp. now rewrite std_max_Rmax, std_min_Rmin.
Qed.

Lemma saturate_bounds (u umin umax : R) :
  umin <= umax ->
  umin <= Std.max (Std.min u umax) umin <= umax.
Proof.
  intros Hb. unfold Std.max, Std.min.
  destruct (Rlt_dec umax u);
    [ destruct (Rlt_dec umax umin) | destruct (Rlt_dec u umin) ]; lra.
Qed.

Lemma saturate_inside (u umin umax : R) :
  umin <= u <= umax ->
  Std.max (Std.min u umax) umin = u.
Proof.
  intros Hb. unfold Std.max, Std.min.
  destruct (Rlt_dec umax u);
    [ destruct (Rlt_dec umax umin) | destruct (Rlt_dec u umin) ]; lra.
Qed.

(* ================================================================== *)
(** * The anti-windup rule *)

Lemma anti_windup_NONE (Dui : R) : anti_windup Dui NONE = Dui.
Proof. reflexivity. Qed.

Lemma anti_windup_LOWER (Dui : R) : anti_windup Dui LOWER = Rmax Dui 0.
Proof. unfold anti_windup; simpl. apply std_max_Rmax. Qed.

Lemma anti_windup_UPPER (Dui : R) : anti_windup Dui UPPER = Rmin Dui 0.
Proof. unfold anti_windup; simpl. apply std_min_Rmin. Qed.

Lemma anti_windup_BOTH (Dui : R) : anti_windup Dui BOTH = 0.
Proof.
  unfold anti_windup; simpl. unfold Std.min, Std.max.
  destruct (Rlt_dec Dui 0) as [Hn | Hn].
  - destruct (Rlt_dec 0 0); lra.
  - destruct (Rlt_dec 0 Dui); lra.
Qed.

Lemma anti_windup_order (Dui : R) (w : WindupMode) :
  anti_windup_swapped Dui w = anti_windup Dui w.
Proof.
  destruct w; try reflexivity.
  rewrite anti_windup_BOTH.
  unfold anti_windup_swapped; simpl. unfold Std.min, Std.max.
  destruct (Rlt_dec 0 Dui) as [Hp | Hp].
  - destruct (Rlt_dec 0 0); lra.
  - destruct (Rlt_dec Dui 0); lra.
Qed.

(** C4.  For every real [Dui]: under [NONE] the rule is the identity, under
    [LOWER] it is [max(Dui, 0)], under [UPPER] it is [min(Dui, 0)], under
    [BOTH] the two clauses together give exactly [0]; and firing the two
    clauses in the other order gives the same value for every mode.  (The
    rule is a function of its two arguments only.) *)
Theorem anti_windup_rule :
  forall Dui : R,
    anti_windup Dui NONE = Dui /\
    anti_windup Dui LOWER = Rmax Dui 0 /\
    anti_windup Dui UPPER = Rmin Dui 0 /\
    anti_windup Dui BOTH = 0 /\
    (forall w : WindupMode, anti_windup_swapped Dui w = anti_windup Dui w).
Proof.
  intros Dui.
  split; [ apply anti_windup_NONE | ].
  split; [ apply anti_windup_LOWER | ].
  split; [ apply anti_windup_UPPER | ].
  split; [ apply anti_windup_BOTH | ].
  intros w; apply anti_windup_order.
Qed.

(* ================================================================== *)
(** * One call of the controller *)

Section OneCall.

Import PIDController.

Variable c : PIDController.t.
Variables r y uff uman utrack Tx : R.
Variables (track auto_mode : bool) (windup : WindupMode).

(** This tick's filter call and the object once [filter_] is updated. *)
Let filtered := MeasurementFilter.call (filter_ c) y Tx.
Let c1 := set_filter c (MeasurementFilter.state filtered).
Let yf1 := yf (MeasurementFilter.output filtered).
Let dyf1 := dyf (MeasurementFilter.output filtered).
Let pre :=
  unsaturated c1 yf1 dyf1 r uff uman utrack Tx track auto_mode windup.

(** [operator()] is the saturation of [unsaturated] followed by the
    update of the old signal states. *)
Lemma call_unfold :
  call c r y uff uman utrack Tx track auto_mode windup =
  (Std.max (Std.min (fst pre) (umax_ (snd pre))) (umin_ (snd pre)),
   set_old (snd pre)
     (Std.max (Std.min (fst pre) (umax_ (snd pre))) (umin_ (snd pre)))
     (kp_ (snd pre) * (b_ (snd pre) * r - yf1))
     (- kd_ (snd pre) * dyf1) uff).
Proof.
  unfold call. fold filtered. fold c1. fold yf1. fold dyf1. fold pre.
  destruct pre as [u c2]. reflexivity.
Qed.

(** The branches of [operator()] never assign the gains, the bounds, the
    bias or the filter. *)
Lemma unsaturated_frame :
  kp_ (snd pre) = kp_ c /\ ki_ (snd pre) = ki_ c /\
  kd_ (snd pre) = kd_ c /\ umin_ (snd pre) = umin_ c /\
  umax_ (snd pre) = umax_ c /\ u0_ (snd pre) = u0_ c /\
  filter_ (snd pre) = MeasurementFilter.state filtered.
Proof.
  unfold pre, unsaturated, p_or_pd_reset, tracking.
  destruct auto_mode, track, (Req_dec_T (ki_ c1) 0); simpl; tauto.
Qed.

(** The setpoint weight after the branches: [1] on an automatic tick of
    a controller without integral action, untouched otherwise. *)
Lemma unsaturated_b :
  b_ (snd pre) =
  if auto_mode then (if Req_dec_T (ki_ c) 0 then 1 else b_ c) else b_ c.
Proof.
  unfold pre, unsaturated, p_or_pd_reset, tracking.
  change (ki_ c1) with (ki_ c).
  destruct auto_mode, track, (Req_dec_T (ki_ c) 0); reflexivity.
Qed.

End OneCall.

(* ================================================================== *)
(** * Saturation, manual mode and tracking *)

Import PIDController.

Lemma call_output (c : PIDController.t) (r y uff uman utrack Tx : R)
    (track auto_mode : bool) (windup : WindupMode) :
  fst (call c r y uff uman utrack Tx track auto_mode windup) =
  Std.max
    (Std.min
       (fst (unsaturated
               (set_filter c
                  (MeasurementFilter.state
                     (MeasurementFilter.call (filter_ c) y Tx)))
               (yf (MeasurementFilter.output
                      (MeasurementFilter.call (filter_ c) y Tx)))
               (dyf (MeasurementFilter.output
                       (MeasurementFilter.call (filter_ c) y Tx)))
               r uff uman utrack Tx track auto_mode windup))
       (umax_ c))
    (umin_ c).
Proof.
  rewrite call_unfold. cbv zeta. cbn [fst].
  pose proof (unsaturated_frame c r y uff uman utrack Tx track auto_mode
                windup) as F.
  cbv zeta in F. destruct F as (_ & _ & _ & Hmin & Hmax & _).
  now rewrite Hmin, Hmax.
Qed.



(** C5.  Manual-mode passthrough: with [auto_mode = false] the call
    returns [clamp(uman, umin, umax)], which is [uman] itself when
    [umin <= uman <= umax]; the value is the same for any other controller
    with the same bounds and any other [r], [y], [uff], [utrack], [Tx],
    [track] and [windup]; and neither the P/PD reset nor the tracking
    block ran: the object afterwards is the one before with its filter
    stepped and its four old signal states assigned by the final update,
    the setpoint weight untouched. *)
Theorem manual_mode_passthrough :
  forall (c : PIDController.t) (r y uff uman utrack Tx : R)
         (track : bool) (windup : WindupMode),
    let res := call c r y uff uman utrack Tx track false windup in
    let filtered := MeasurementFilter.call (filter_ c) y Tx in
    fst res = clamp uman (umin_ c) (umax_ c) /\
    (umin_ c <= uman <= umax_ c -> fst res = uman) /\
    (forall (c' : PIDController.t) (r' y' uff' utrack' Tx' : R)
            (track' : bool) (windup' : WindupMode),
        umin_ c' = umin_ c -> umax_ c' = umax_ c ->
        fst (call c' r' y' uff' uman utrack' Tx' track' false windup')
        = fst res) /\
    snd res =
      set_old (set_filter c (MeasurementFilter.state filtered))
        (fst res)
        (kp_ c * (b_ c * r - yf (MeasurementFilter.output filtered)))
        (- kd_ c * dyf (MeasurementFilter.output filtered))
        uff.
Proof.
  intros c r y uff uman utrack Tx track windup res filtered.
  assert (Hu : fst res = Std.max (Std.min uman (umax_ c)) (umin_ c)).
  { unfold res. rewrite call_output. reflexivity. }
  split; [ rewrite Hu; apply saturate_clamp | ].
  split; [ intros Hin; rewrite Hu; now apply saturate_inside | ].
  split.
  - intros c' r' y' uff' utrack' Tx' track' windup' Hmin Hmax.
    rewrite Hu, call_output. cbn [unsaturated fst]. now rewrite Hmin, Hmax.
  - unfold res. rewrite call_unfold. reflexivity.
Qed.

(** C6.  Bumpless tracking formula: on a call with [auto_mode = true] and
    [track = true] of a controller with [ki <> 0], the tracking block
    leaves [u_old = utrack] and [up_old = ud_old = uff_old = 0], the
    value before saturation is [utrack + Dup + Dui + Dud + Duff] with
    [Dup = kp*(b*r - yf)], [Dui = anti_windup(ki*(r - yf)*Tx, windup)],
    [Dud = -kd*dyf/Tx], [Duff = uff], where [yf], [dyf] are this tick's
    filter outputs, and the value returned is its clamp to
    [[umin, umax]]. *)
Theorem bumpless_tracking_formula :
  forall (c : PIDController.t) (r y uff uman utrack Tx : R)
         (windup : WindupMode),
    ki_ c <> 0 ->
    let filtered := MeasurementFilter.call (filter_ c) y Tx in
    let yf := yf (MeasurementFilter.output filtered) in
    let dyf := dyf (MeasurementFilter.output filtered) in
    let pre :=
      unsaturated (set_filter c (MeasurementFilter.state filtered))
        yf dyf r uff uman utrack Tx true true windup in
    let Dup := kp_ c * (b_ c * r - yf) in
    let Dui := anti_windup (ki_ c * (r - yf) * Tx) windup in
    let Dud := - kd_ c * dyf / Tx in
    let Duff := uff in
    (u_old_ (snd pre) = utrack /\ up_old_ (snd pre) = 0 /\
     ud_old_ (snd pre) = 0 /\ uff_old_ (snd pre) = 0) /\
    fst pre = utrack + Dup + Dui + Dud + Duff /\
    fst (call c r y uff uman utrack Tx true true windup) =
      clamp (utrack + Dup + Dui + Dud + Duff) (umin_ c) (umax_ c).
Proof.
  intros c r y uff uman utrack Tx windup Hki
         filtered yf dyf pre Dup Dui Dud Duff.
  assert (Hpre : pre =
            (utrack + (Dup - 0 + Dui + (- kd_ c * dyf - 0) / Tx + (uff - 0)),
             set_old (set_filter c (MeasurementFilter.state filtered))
               utrack 0 0 0)).
  { unfold pre, unsaturated, p_or_pd_reset, tracking.
    cbn [ki_ set_filter].
    destruct (Req_dec_T (ki_ c) 0) as [E | _]; [ contradiction | ].
    reflexivity. }
  assert (Hval : fst pre = utrack + Dup + Dui + Dud + Duff).
  { rewrite Hpre. cbn [fst]. unfold Dud, Duff. lra. }
  split; [ rewrite Hpre; cbn; tauto | ].
  split; [ exact Hval | ].
  rewrite call_output. fold filtered. fold yf. fold dyf. fold pre.
  rewrite Hval. apply saturate_clamp.
Qed.

(** A PI controller with setpoint weight [1/2] tracking [utrack = 2]. *)
Lemma bumpless_tracking_formula_witness :
  let c := new 1 (1/2) 0 10 (-10) 10 0 (1/2) in
  let filtered := MeasurementFilter.call (filter_ c) 1 1 in
  let yf := yf (MeasurementFilter.output filtered) in
  let dyf := dyf (MeasurementFilter.output filtered) in
  ki_ c <> 0 /\
  fst (call c 3 1 0 0 2 1 true true UPPER) =
    clamp (2 + 1 * (1/2 * 3 - yf) + anti_windup (1/2 * (3 - yf) * 1) UPPER
           + - 0 * dyf / 1 + 0) (-10) 10.
Proof.
  intros c filtered yf dyf.
  assert (Hki : ki_ c <> 0) by (simpl; lra).
  split; [ exact Hki | ].
  exact (proj2 (proj2
           (bumpless_tracking_formula c 3 1 0 0 2 1 UPPER Hki))).
Defined.

(* ================================================================== *)
(** * The discretizer *)

Lemma zoh_Fy_formulas (TfTs Tx : R) : zoh_Fy TfTs Tx = zoh_Fy_spec TfTs Tx.
Proof. reflexivity. Qed.

(** ** Bounds on the exponential from its power series

    [E1 x N] is the partial sum [1 + x + ... + x^N/N!].  For [x >= 0] the
    partial sums grow towards [exp x]; for the alternating series at [-x],
    [0 <= x <= 1], the partial sums that end on a negative term do. *)

Lemma E1_succ (x : R) (N : nat) :
  E1 x (S N) = E1 x N + / INR (fact (S N)) * x ^ S N.
Proof. unfold E1. apply tech5. Qed.

Lemma E1_le_exp (x : R) (N : nat) : 0 <= x -> E1 x N <= exp x.
Proof.
  intros Hx. apply (growing_ineq (E1 x)); [ | apply E1_cvg ].
  intros n. rewrite E1_succ.
  assert (0 <= / INR (fact (S n)) * x ^ S n).
  { apply Rmult_le_pos.
    - left. apply Rinv_0_lt_compat, INR_fact_lt_0.
    - now apply pow_le. }
  lra.
Qed.

Lemma E1_odd_cvg (x : R) :
  Un_cv (fun n : nat => E1 x (S (2 * n))) (exp x).
Proof.
  intros eps Heps. destruct (E1_cvg x eps Heps) as [N HN].
  exists N. intros n Hn. apply HN. lia.
Qed.

Lemma E1_odd_growing (x : R) :
  0 <= x <= 1 -> Un_growing (fun n : nat => E1 (- x) (S (2 * n))).
Proof.
  intros Hx n.
  replace (2 * S n)%nat with (S (S (2 * n))) by lia.
  rewrite (E1_succ _ (S (S (2 * n)))), (E1_succ _ (S (2 * n))).
  set (m := S (S (2 * n))).
  assert (Hp : (- x) ^ m = x ^ m).
  { unfold m. replace (S (S (2 * n))) with (2 * S n)%nat by lia.
    rewrite !pow_Rsqr. now rewrite <- Rsqr_neg. }
  assert (Hq : 0 <= x ^ m) by (apply pow_le; lra).
  rewrite <- tech_pow_Rmult, Hp.
  rewrite fact_simpl, mult_INR.
  assert (HF : 0 < INR (fact m)) by apply INR_fact_lt_0.
  assert (HS : 1 <= INR (S m)).
  { rewrite S_INR. pose proof (pos_INR m). lra. }
  rewrite Rinv_mult.
  assert (Hi : 0 < / INR (fact m)) by now apply Rinv_0_lt_compat.
  assert (Hj : 0 < / INR (S m) <= 1).
  { split; [ apply Rinv_0_lt_compat; lra | ].
    assert (Hk : / INR (S m) <= / 1) by (apply Rinv_le_contravar; lra).
    now rewrite Rinv_1 in Hk. }
  set (F := / INR (fact m)) in *. set (G := / INR (S m)) in *.
  set (p := x ^ m) in *.
  assert (0 <= F * p * (1 - G * x)).
  { apply Rmult_le_pos; [ apply Rmult_le_pos; lra | nra ]. }
  nra.
Qed.

Lemma E1_odd_le_exp (x : R) (n : nat) :
  0 <= x <= 1 -> E1 (- x) (S (2 * n)) <= exp (- x).
Proof.
  intros Hx.
  apply (growing_ineq (fun k : nat => E1 (- x) (S (2 * k)))).
  - now apply E1_odd_growing.
  - apply E1_odd_cvg.
Qed.

(** [exp(-0.1)] to eight decimals. *)
Lemma exp_tenth_bounds :
  90483741 / 100000000 <= exp (- (1 / 10)) <= 90483742 / 100000000.
Proof.
  split.
  - pose proof (E1_odd_le_exp (1/10) 2) as H.
    assert (Hx : 0 <= 1/10 <= 1) by lra. specialize (H Hx).
    unfold E1 in H. cbn in H. lra.
  - rewrite exp_Ropp.
    pose proof (E1_le_exp (1/10) 5) as H.
    assert (Hx : 0 <= 1/10) by lra. specialize (H Hx).
    unfold E1 in H. cbn in H.
    assert (Hl : 110517091 / 100000000 <= exp (1 / 10)) by lra.
    assert (Hpos : 0 < exp (1/10)) by apply exp_pos.
    apply Rmult_le_reg_r with (exp (1/10)); [ exact Hpos | ].
    rewrite Rinv_l by lra. nra.
Qed.

Lemma zoh_Fy_10_1 :
  let p := zoh_Fy 10 1 in
  approx (a11 p) (995321 / 1000000) (5 / 10000000) /\
  approx (a12 p) (904837 / 1000000) (5 / 10000000) /\
  approx (a21 p) (- (904837 / 100000000)) (5 / 1000000000) /\
  approx (a22 p) (814354 / 1000000) (5 / 10000000) /\
  approx (b1 p) (4679 / 1000000) (5 / 10000000) /\
  approx (b2 p) (904837 / 100000000) (5 / 1000000000).
Proof.
  pose proof exp_tenth_bounds as [Hl Hu].
  cbv zeta. unfold approx, zoh_Fy. cbn [a11 a12 a21 a22 b1 b2].
  set (h := exp (- (1 / 10))) in *.
  repeat split; apply Rabs_le; lra.
Qed.

(** C3.  Discretizer correctness: for [TfTs > 0] and [Tx > 0], [zoh_Fy]
    returns the six coefficients of the specification's formulas
    ([h1 = Tx/TfTs], [h2 = exp(-h1)], [h3 = h1*h2], [h4 = h3/TfTs],
    [a11 = h2 + h3], [a12 = h2], [a21 = -h4], [a22 = h2 - h3],
    [b1 = 1 - h2 - h3], [b2 = h4]); and at [TfTs = 10], [Tx = 1] the
    coefficients are 0.995321, 0.904837, -0.00904837, 0.814354, 0.004679
    and 0.00904837, each to within half a unit of its last digit.  The
    result depends on the two arguments only; there is no state. *)
Theorem zoh_Fy_correct :
  (forall TfTs Tx : R,
      0 < TfTs -> 0 < Tx -> zoh_Fy TfTs Tx = zoh_Fy_spec TfTs Tx) /\
  (let p := zoh_Fy 10 1 in
   approx (a11 p) (995321 / 1000000) (5 / 10000000) /\
   approx (a12 p) (904837 / 1000000) (5 / 10000000) /\
   approx (a21 p) (- (904837 / 100000000)) (5 / 1000000000) /\
   approx (a22 p) (814354 / 1000000) (5 / 10000000) /\
   approx (b1 p) (4679 / 1000000) (5 / 10000000) /\
   approx (b2 p) (904837 / 100000000) (5 / 1000000000)).
Proof.
  split.
  - intros TfTs Tx _ _. apply zoh_Fy_formulas.
  - exact zoh_Fy_10_1.
Qed.

Lemma zoh_Fy_correct_witness :
  0 < 10 /\ 0 < 1 /\ zoh_Fy 10 1 = zoh_Fy_spec 10 1.
Proof.
  assert (H10 : 0 < 10) by lra.
  assert (H1 : 0 < 1) by lra.
  split; [ exact H10 | split; [ exact H1 | ] ].
  exact (proj1 zoh_Fy_correct 10 1 H10 H1).
Defined.

(* ================================================================== *)
(** * The measurement filter *)

Module FilterFacts.

Import MeasurementFilter.

(** The comparison [Tx != Tx_old_], as a proposition. *)
Lemma ne_true (Tx : R) (o : option R) : ne Tx o = true <-> o <> Some Tx.
Proof.
  unfold ne. destruct o as [t' | ].
  - destruct (Req_dec_T Tx t') as [E | E].
    + subst. split; [ discriminate | intros H; now elim H ].
    + split; [ intros _ H; inversion H; now elim E | reflexivity ].
  - split; [ discriminate | reflexivity ].
Qed.

Lemma ne_false (Tx : R) (o : option R) : ne Tx o = false <-> o = Some Tx.
Proof.
  unfold ne. destruct o as [t' | ].
  - destruct (Req_dec_T Tx t') as [E | E].
    + subst. split; reflexivity.
    + split; [ discriminate | intros H; inversion H; now elim E ].
  - split; discriminate.
Qed.

(** The guard of [operator()], as a proposition. *)
Lemma guard_true (f : t) (Tx : R) :
  negb (initialized_ f) || ne Tx (Tx_old_ f) = true <->
  initialized_ f = false \/ Tx_old_ f <> Some Tx.
Proof.
  rewrite orb_true_iff, negb_true_iff, ne_true. reflexivity.
Qed.

Lemma guard_false (f : t) (Tx : R) :
  negb (initialized_ f) || ne Tx (Tx_old_ f) = false <->
  initialized_ f = true /\ Tx_old_ f = Some Tx.
Proof.
  rewrite orb_false_iff, negb_false_iff, ne_false. reflexivity.
Qed.

(** What [operator()] leaves behind, whatever its arguments. *)
Lemma call_post (f : t) (y Tx : R) :
  let res := call f y Tx in
  TfTs_ (state res) = TfTs_ f /\
  initialized_ (state res) = true /\
  Tx_old_ (state res) = Some Tx /\
  yf_ (state res) =
    a11_ (state res) * yf_ f + a12_ (state res) * dyf_ f
    + b1_ (state res) * y /\
  dyf_ (state res) =
    a21_ (state res) * yf_ f + a22_ (state res) * dyf_ f
    + b2_ (state res) * y /\
  output res = {| yf := yf_ (state res); dyf := dyf_ (state res) |}.
Proof.
  unfold call.
  destruct (negb (initialized_ f) || ne Tx (Tx_old_ f)) eqn:G; cbn.
  - repeat split.
  - apply guard_false in G. destruct G as [Hi _]. repeat split; auto.
Qed.

(** The discretizer is called once, with [(TfTs_, Tx)], when the guard
    holds, and the coefficients are then its result; otherwise it is
    not called and the coefficients stay. *)
Lemma call_rediscretizes (f : t) (y Tx : R) :
  initialized_ f = false \/ Tx_old_ f <> Some Tx ->
  zoh_calls (call f y Tx) = [(TfTs_ f, Tx)] /\
  params (state (call f y Tx)) = zoh_Fy (TfTs_ f) Tx.
Proof.
  intros G. apply guard_true in G. unfold call. rewrite G.
  split; [ reflexivity | ].
  generalize (zoh_Fy (TfTs_ f) Tx). intros p. now destruct p.
Qed.

Lemma call_keeps_cache (f : t) (y Tx : R) :
  initialized_ f = true -> Tx_old_ f = Some Tx ->
  zoh_calls (call f y Tx) = [] /\
  params (state (call f y Tx)) = params f.
Proof.
  intros Hi Ho.
  assert (G : negb (initialized_ f) || ne Tx (Tx_old_ f) = false)
    by now apply guard_false.
  unfold call. rewrite G. cbn. split; reflexivity.
Qed.

Lemma reset_post (f : t) :
  TfTs_ (reset f) = TfTs_ f /\ yf_ (reset f) = 0 /\ dyf_ (reset f) = 0 /\
  initialized_ (reset f) = false /\ Tx_old_ (reset f) = None /\
  params (reset f) = params f.
Proof. repeat split. Qed.

(** A call changes the object whenever [Tx_old_] was not already [Tx]. *)
Lemma call_mutates (f : t) (y Tx : R) :
  Tx_old_ f <> Some Tx -> state (call f y Tx) <> f.
Proof.
  intros Hne Heq. apply Hne. rewrite <- Heq at 1.
  apply (call_post f y Tx).
Qed.

(** Every reachable filter keeps its time constant and satisfies the
    cache invariant. *)
Lemma reachable_inv (TfTs : R) (f : t) :
  reachable TfTs f -> TfTs_ f = TfTs /\ cache_valid f.
Proof.
  induction 1 as [ | f y Tx Hr [HT Hc] | f Hr [HT Hc] ].
  - split; [ reflexivity | ]. intros Hi; discriminate.
  - destruct (call_post f y Tx) as (HT' & _ & Ho & _).
    split; [ congruence | ].
    intros _. exists Tx. split; [ exact Ho | ].
    rewrite HT'.
    destruct (negb (initialized_ f) || ne Tx (Tx_old_ f)) eqn:G.
    + apply guard_true in G. now apply call_rediscretizes.
    + apply guard_false in G. destruct G as [Hi HTx].
      destruct (call_keeps_cache f y Tx Hi HTx) as [_ Hp].
      rewrite Hp. destruct (Hc Hi) as (Tx0 & E0 & Hp0).
      congruence.
  - split; [ exact HT | ]. intros Hi; discriminate.
Qed.

(** After a call on a filter whose cache is valid, the coefficients are
    those of the current [Tx]. *)
Lemma call_params (f : t) (y Tx : R) :
  cache_valid f ->
  params (state (call f y Tx)) = zoh_Fy (TfTs_ f) Tx.
Proof.
  intros Hc.
  destruct (negb (initialized_ f) || ne Tx (Tx_old_ f)) eqn:G.
  - apply guard_true in G. now apply call_rediscretizes.
  - apply guard_false in G. destruct G as [Hi HTx].
    destruct (call_keeps_cache f y Tx Hi HTx) as [_ Hp].
    rewrite Hp. destruct (Hc Hi) as (Tx0 & E0 & Hp0). congruence.
Qed.

(** Filters that are alike return the same output and stay alike. *)
Lemma call_alike (f g : t) (y Tx : R) :
  alike f g ->
  output (call f y Tx) = output (call g y Tx) /\
  alike (state (call f y Tx)) (state (call g y Tx)).
Proof.
  intros (HT & Hy & Hd & Ho & Hi & Hp).
  assert (Hpar : params (state (call f y Tx))
                 = params (state (call g y Tx))).
  { destruct (negb (initialized_ f) || ne Tx (Tx_old_ f)) eqn:G.
    - assert (G' := G). rewrite Hi, Ho in G'.
      apply guard_true in G, G'.
      destruct (call_rediscretizes f y Tx G) as [_ ->].
      destruct (call_rediscretizes g y Tx G') as [_ ->].
      now rewrite HT.
    - assert (G' := G). rewrite Hi, Ho in G'.
      apply guard_false in G, G'.
      destruct G as [Gi Go], G' as [Gi' Go'].
      destruct (call_keeps_cache f y Tx Gi Go) as [_ ->].
      destruct (call_keeps_cache g y Tx Gi' Go') as [_ ->].
      now apply Hp. }
  destruct (call_post f y Tx) as (HTf & Hif & Hof & Hyf & Hdf & Houtf).
  destruct (call_post g y Tx) as (HTg & Hig & Hog & Hyg & Hdg & Houtg).
  unfold params in Hpar. injection Hpar as E1 E2 E3 E4 E5 E6.
  assert (Ey : yf_ (state (call f y Tx)) = yf_ (state (call g y Tx))).
  { rewrite Hyf, Hyg, E1, E2, E5, Hy, Hd. reflexivity. }
  assert (Ed : dyf_ (state (call f y Tx)) = dyf_ (state (call g y Tx))).
  { rewrite Hdf, Hdg, E3, E4, E6, Hy, Hd. reflexivity. }
  split.
  - rewrite Houtf, Houtg, Ey, Ed. reflexivity.
  - unfold alike. repeat split; try congruence.
    intros _. unfold params. congruence.
Qed.

Lemma alike_refl (f : t) : alike f f.
Proof. unfold alike. repeat split; auto. Qed.

End FilterFacts.

(** C2 (as the specification states it) fails: a filter with [TfTs = 10]
    called with the execution period [Tx = -1 <= 0], and a filter with
    [TfTs = -10 <= 0] called with [Tx = 1], are not rejected: each call
    returns an output, calls the discretizer with the invalid value and
    leaves a changed object behind. *)
Lemma domain_error_not_rejected :
  let f := MeasurementFilter.new 10 in
  let res := MeasurementFilter.call f 1 (-1) in
  let g := MeasurementFilter.new (-10) in
  let res' := MeasurementFilter.call g 1 1 in
  (-1 <= 0 /\
   MeasurementFilter.state res <> f /\
   MeasurementFilter.initialized_ (MeasurementFilter.state res) = true /\
   MeasurementFilter.Tx_old_ (MeasurementFilter.state res) = Some (-1) /\
   MeasurementFilter.zoh_calls res = [(10, -1)] /\
   MeasurementFilter.params (MeasurementFilter.state res) = zoh_Fy 10 (-1))
  /\
  (-10 <= 0 /\
   MeasurementFilter.state res' <> g /\
   MeasurementFilter.initialized_ (MeasurementFilter.state res') = true /\
   MeasurementFilter.zoh_calls res' = [(-10, 1)] /\
   MeasurementFilter.params (MeasurementFilter.state res') = zoh_Fy (-10) 1).
Proof.
  cbv zeta. split.
  - split; [ lra | ].
    split; [ apply FilterFacts.call_mutates; discriminate | ].
    repeat split.
  - split; [ lra | ].
    split; [ apply FilterFacts.call_mutates; discriminate | ].
    repeat split.
Qed.

(** C2, amended.  Neither [zoh_Fy] nor the filter's [operator()] checks
    its arguments and there is no rejection path: for every [TfTs] and
    [Tx], also those [<= 0], [zoh_Fy] returns the coefficients of its
    formulas, and the filter call returns and mutates the object as it
    does for valid arguments: afterwards [initialized_] is true,
    [Tx_old_] is [Tx], [yf_] and [dyf_] are advanced by the state
    equations and returned, and when [Tx_old_] was not already [Tx] the
    discretizer has been called with [(TfTs_, Tx)] and the object differs
    from the one before the call. *)
Theorem filter_call_unguarded :
  forall (f : MeasurementFilter.t) (y Tx : R),
    let res := MeasurementFilter.call f y Tx in
    let f' := MeasurementFilter.state res in
    zoh_Fy (MeasurementFilter.TfTs_ f) Tx
      = zoh_Fy_spec (MeasurementFilter.TfTs_ f) Tx /\
    MeasurementFilter.TfTs_ f' = MeasurementFilter.TfTs_ f /\
    MeasurementFilter.initialized_ f' = true /\
    MeasurementFilter.Tx_old_ f' = Some Tx /\
    MeasurementFilter.yf_ f' =
      MeasurementFilter.a11_ f' * MeasurementFilter.yf_ f
      + MeasurementFilter.a12_ f' * MeasurementFilter.dyf_ f
      + MeasurementFilter.b1_ f' * y /\
    MeasurementFilter.dyf_ f' =
      MeasurementFilter.a21_ f' * MeasurementFilter.yf_ f
      + MeasurementFilter.a22_ f' * MeasurementFilter.dyf_ f
      + MeasurementFilter.b2_ f' * y /\
    MeasurementFilter.output res =
      {| yf := MeasurementFilter.yf_ f'; dyf := MeasurementFilter.dyf_ f' |}
    /\
    (MeasurementFilter.Tx_old_ f <> Some Tx ->
     MeasurementFilter.zoh_calls res = [(MeasurementFilter.TfTs_ f, Tx)] /\
     MeasurementFilter.params f' = zoh_Fy (MeasurementFilter.TfTs_ f) Tx /\
     f' <> f).
Proof.
  intros f y Tx res f'.
  split; [ apply zoh_Fy_formulas | ].
  destruct (FilterFacts.call_post f y Tx) as (HT & Hi & Ho & Hy & Hd & Hout).
  repeat (split; [ assumption | ]).
  intros Hne.
  destruct (FilterFacts.call_rediscretizes f y Tx (or_intror Hne))
    as [Hc Hp].
  split; [ exact Hc | ].
  split; [ exact Hp | ].
  now apply FilterFacts.call_mutates.
Qed.

(** C7.  Re-discretization cache invariant, for every filter a program can
    hold (constructed, then only called and reset): a call invokes
    [zoh_Fy(TfTs, Tx)], once, if and only if the filter is uninitialized
    or [Tx] differs from [Tx_old]; after the call the cached coefficients
    are [zoh_Fy(TfTs, Tx)] for the current [Tx], [initialized] is true and
    [Tx_old = Tx]; [reset()] zeroes [yf] and [dyf], clears [initialized]
    and sets [Tx_old] to the sentinel, and the call after it invokes the
    discretizer whatever its [Tx]. *)
Theorem rediscretization_cache :
  forall (TfTs : R) (f : MeasurementFilter.t) (y Tx : R),
    MeasurementFilter.reachable TfTs f ->
    let res := MeasurementFilter.call f y Tx in
    let f' := MeasurementFilter.state res in
    let f0 := MeasurementFilter.reset f in
    (MeasurementFilter.zoh_calls res = [(TfTs, Tx)] <->
     (MeasurementFilter.initialized_ f = false \/
      MeasurementFilter.Tx_old_ f <> Some Tx)) /\
    (MeasurementFilter.zoh_calls res = [] <->
     ~ (MeasurementFilter.initialized_ f = false \/
        MeasurementFilter.Tx_old_ f <> Some Tx)) /\
    MeasurementFilter.params f' = zoh_Fy TfTs Tx /\
    MeasurementFilter.initialized_ f' = true /\
    MeasurementFilter.Tx_old_ f' = Some Tx /\
    (MeasurementFilter.yf_ f0 = 0 /\ MeasurementFilter.dyf_ f0 = 0 /\
     MeasurementFilter.initialized_ f0 = false /\
     MeasurementFilter.Tx_old_ f0 = None) /\
    (forall y' Tx' : R,
        MeasurementFilter.zoh_calls (MeasurementFilter.call f0 y' Tx')
        = [(TfTs, Tx')]).
Proof.
  intros TfTs f y Tx Hr res f' f0.
  destruct (FilterFacts.reachable_inv TfTs f Hr) as [HT Hc].
  destruct (FilterFacts.call_post f y Tx) as (_ & Hi & Ho & _).
  assert (Hyes :
    MeasurementFilter.initialized_ f = false \/
    MeasurementFilter.Tx_old_ f <> Some Tx ->
    MeasurementFilter.zoh_calls res = [(TfTs, Tx)]).
  { intros G. rewrite <- HT. now apply FilterFacts.call_rediscretizes. }
  assert (Hno :
    ~ (MeasurementFilter.initialized_ f = false \/
       MeasurementFilter.Tx_old_ f <> Some Tx) ->
    MeasurementFilter.zoh_calls res = []).
  { intros G.
    destruct (negb (MeasurementFilter.initialized_ f)
              || MeasurementFilter.ne Tx (MeasurementFilter.Tx_old_ f))
      eqn:E.
    - apply FilterFacts.guard_true in E. contradiction.
    - apply FilterFacts.guard_false in E. destruct E as [E1 E2].
      now apply FilterFacts.call_keeps_cache. }
  assert (Hdec :
    (MeasurementFilter.initialized_ f = false \/
     MeasurementFilter.Tx_old_ f <> Some Tx) \/
    ~ (MeasurementFilter.initialized_ f = false \/
       MeasurementFilter.Tx_old_ f <> Some Tx)).
  { destruct (negb (MeasurementFilter.initialized_ f)
              || MeasurementFilter.ne Tx (MeasurementFilter.Tx_old_ f))
      eqn:E.
    - left. now apply FilterFacts.guard_true.
    - right. apply FilterFacts.guard_false in E. destruct E as [E1 E2].
      intros [G | G]; congruence. }
  split.
  { split; [ | exact Hyes ].
    intros Hcalls. destruct Hdec as [G | G]; [ exact G | ].
    rewrite (Hno G) in Hcalls. discriminate. }
  split.
  { split; [ | exact Hno ].
    intros Hcalls G. rewrite (Hyes G) in Hcalls. discriminate. }
  split; [ rewrite <- HT; now apply FilterFacts.call_params | ].
  split; [ exact Hi | ].
  split; [ exact Ho | ].
  split; [ repeat split | ].
  intros y' Tx'. rewrite <- HT.
  apply (FilterFacts.call_rediscretizes f0 y' Tx'). left. reflexivity.
Qed.

(** A filter that has run one tick at [Tx = 1]: a second call with the
    same [Tx] makes no call to the discretizer; a call after [reset()]
    with that same [Tx] does. *)
Lemma rediscretization_cache_witness :
  let f := MeasurementFilter.state
             (MeasurementFilter.call (MeasurementFilter.new 10) 1 1) in
  MeasurementFilter.reachable 10 f /\
  MeasurementFilter.zoh_calls (MeasurementFilter.call f 2 1) = [] /\
  MeasurementFilter.params
    (MeasurementFilter.state (MeasurementFilter.call f 2 1)) = zoh_Fy 10 1 /\
  MeasurementFilter.zoh_calls
    (MeasurementFilter.call (MeasurementFilter.reset f) 2 1) = [(10, 1)].
Proof.
  intros f.
  assert (Hr : MeasurementFilter.reachable 10 f).
  { unfold f. apply MeasurementFilter.reach_call.
    apply MeasurementFilter.reach_new. }
  destruct (rediscretization_cache 10 f 2 1 Hr)
    as (_ & Hno & Hp & _ & _ & _ & Hreset).
  split; [ exact Hr | ].
  split.
  - apply Hno. intros [G | G].
    + discriminate G.
    + apply G. reflexivity.
  - split; [ exact Hp | apply Hreset ].
Defined.

(* ================================================================== *)
(** * What a call does to the configuration *)

(** [operator()] leaves the gains, the bounds, the bias and the filter's
    time constant as they were; the setpoint weight becomes [1] on an
    automatic tick of a controller with [ki == 0] and is left as it was
    on every other tick. *)
Lemma call_frame (c : PIDController.t) (r y uff uman utrack Tx : R)
    (track auto_mode : bool) (windup : WindupMode) :
  let c' := snd (call c r y uff uman utrack Tx track auto_mode windup) in
  kp_ c' = kp_ c /\ ki_ c' = ki_ c /\ kd_ c' = kd_ c /\
  umin_ c' = umin_ c /\ umax_ c' = umax_ c /\ u0_ c' = u0_ c /\
  MeasurementFilter.TfTs_ (filter_ c') = MeasurementFilter.TfTs_ (filter_ c)
  /\
  b_ c' =
    if auto_mode then (if Req_dec_T (ki_ c) 0 then 1 else b_ c) else b_ c.
Proof.
  cbv zeta. rewrite call_unfold. cbv zeta. cbn [snd].
  pose proof (unsaturated_frame c r y uff uman utrack Tx track auto_mode
                windup) as F.
  pose proof (unsaturated_b c r y uff uman utrack Tx track auto_mode
                windup) as B.
  cbv zeta in F, B.
  destruct F as (Hkp & Hki & Hkd & Hmin & Hmax & Hu0 & Hf).
  cbn [set_old kp_ ki_ kd_ umin_ umax_ u0_ b_ filter_].
  rewrite Hf.
  destruct (FilterFacts.call_post (filter_ c) y Tx) as (HT & _).
  repeat (split; [ assumption | ]). exact B.
Qed.

(** Controllers that are alike return the same control signal and stay
    alike. *)
Lemma call_alike_controllers (c d : PIDController.t)
    (r y uff uman utrack Tx : R) (track auto_mode : bool)
    (windup : WindupMode) :
  alike c d ->
  fst (call c r y uff uman utrack Tx track auto_mode windup)
  = fst (call d r y uff uman utrack Tx track auto_mode windup) /\
  alike (snd (call c r y uff uman utrack Tx track auto_mode windup))
        (snd (call d r y uff uman utrack Tx track auto_mode windup)).
Proof.
  intros (Hkp & Hki & Hkd & Hmin & Hmax & Hu0 & Hu & Hud & Huff & Hf & Hb).
  destruct (FilterFacts.call_alike _ _ y Tx Hf) as [Hout Hf'].
  rewrite !call_unfold. cbv zeta.
  set (fc := MeasurementFilter.call (filter_ c) y Tx) in *.
  set (fd := MeasurementFilter.call (filter_ d) y Tx) in *.
  rewrite <- Hout.
  set (yf1 := yf (MeasurementFilter.output fc)).
  set (dyf1 := dyf (MeasurementFilter.output fc)).
  destruct c as [kp ki kd umin umax u0 b uo upo udo uffo flt].
  destruct d as [kp' ki' kd' umin' umax' u0' b' uo' upo' udo' uffo' flt'].
  cbn [kp_ ki_ kd_ umin_ umax_ u0_ b_ u_old_ up_old_ ud_old_ uff_old_
       filter_] in *.
  subst kp' ki' kd' umin' umax' u0' uo' udo' uffo'.
  unfold unsaturated, p_or_pd_reset, tracking, set_filter, set_old, set_b.
  cbn [kp_ ki_ kd_ umin_ umax_ u0_ b_ u_old_ up_old_ ud_old_ uff_old_
       filter_].
  destruct auto_mode; [ destruct (Req_dec_T ki 0) as [Ez | Enz] | ].
  - (* automatic, ki == 0 *)
    destruct track; cbn [fst snd]; unfold alike;
      cbn [kp_ ki_ kd_ umin_ umax_ u0_ b_ u_old_ up_old_ ud_old_ uff_old_
           filter_]; split_conjs; try reflexivity; try exact Hf';
      intros; contradiction.
  - (* automatic, ki <> 0 *)
    destruct (Hb Enz) as [Eb Eup]. subst b' upo'.
    destruct track; cbn [fst snd]; unfold alike;
      cbn [kp_ ki_ kd_ umin_ umax_ u0_ b_ u_old_ up_old_ ud_old_ uff_old_
           filter_]; split_conjs; try reflexivity; try exact Hf';
      intros; split; reflexivity.
  - (* manual *)
    cbn [fst snd]; unfold alike;
      cbn [kp_ ki_ kd_ umin_ umax_ u0_ b_ u_old_ up_old_ ud_old_ uff_old_
           filter_]; split_conjs; try reflexivity; try exact Hf'.
    intros Enz. destruct (Hb Enz) as [Eb _]. subst b'. split; reflexivity.
Qed.

(* ================================================================== *)
(** * Sequences of ticks *)

Lemma run_cons (c : PIDController.t) (i : Tick.t) (s : list Tick.t) :
  run c (i :: s) =
  (fst (step c i) :: fst (run (snd (step c i)) s),
   snd (run (snd (step c i)) s)).
Proof.
  cbn [run]. destruct (step c i) as [u c1]. cbn [fst snd].
  destruct (run c1 s) as [us c2]. reflexivity.
Qed.

(** Controllers that are alike return the same sequence of control
    signals. *)
Lemma run_alike (s : list Tick.t) :
  forall c d : PIDController.t,
    alike c d -> fst (run c s) = fst (run d s).
Proof.
  induction s as [ | i s IH ]; intros c d H.
  - reflexivity.
  - rewrite !run_cons. cbn [fst].
    destruct (call_alike_controllers c d (Tick.r i) (Tick.y i) (Tick.uff i)
                (Tick.uman i) (Tick.utrack i) (Tick.Tx i) (Tick.track i)
                (Tick.auto_mode i) (Tick.windup i) H) as [Hu Hs].
    fold (step c i) in Hu, Hs. fold (step d i) in Hu, Hs.
    rewrite Hu. f_equal. now apply IH.
Qed.

Lemma step_same_config (c : PIDController.t) (i : Tick.t) :
  same_config (snd (step c i)) c.
Proof.
  unfold step.
  destruct (call_frame c (Tick.r i) (Tick.y i) (Tick.uff i) (Tick.uman i)
              (Tick.utrack i) (Tick.Tx i) (Tick.track i) (Tick.auto_mode i)
              (Tick.windup i))
    as (Hkp & Hki & Hkd & Hmin & Hmax & Hu0 & HT & Hb).
  unfold same_config. split_conjs; try assumption.
  rewrite Hki. intros Enz. rewrite Hb.
  destruct (Tick.auto_mode i); [ | reflexivity ].
  destruct (Req_dec_T (ki_ c) 0); [ contradiction | reflexivity ].
Qed.

Lemma run_same_config (s : list Tick.t) :
  forall c : PIDController.t, same_config (snd (run c s)) c.
Proof.
  induction s as [ | i s IH ]; intros c.
  - unfold same_config. cbn. split_conjs; reflexivity.
  - rewrite run_cons. cbn [snd].
    pose proof (IH (snd (step c i))) as H1.
    pose proof (step_same_config c i) as H2.
    unfold same_config in *.
    destruct H1 as (A1 & A2 & A3 & A4 & A5 & A6 & A7 & A8).
    destruct H2 as (B1 & B2 & B3 & B4 & B5 & B6 & B7 & B8).
    split_conjs; try congruence.
    intros Enz. rewrite A8 by exact Enz. apply B8. congruence.
Qed.

(** A controller that has run and is then reset is alike a freshly
    constructed one. *)
Lemma reset_alike_new (kp ki kd TfTs umin umax u0 b : R) (s : list Tick.t) :
  alike (reset (snd (run (new kp ki kd TfTs umin umax u0 b) s)))
        (new kp ki kd TfTs umin umax u0 b).
Proof.
  pose proof (run_same_config s (new kp ki kd TfTs umin umax u0 b))
    as (A1 & A2 & A3 & A4 & A5 & A6 & A7 & A8).
  set (c := snd (run (new kp ki kd TfTs umin umax u0 b) s)) in *.
  unfold alike, reset.
  cbn [set_filter set_old new kp_ ki_ kd_ umin_ umax_ u0_ b_ u_old_ up_old_
       ud_old_ uff_old_ filter_] in *.
  split_conjs; try assumption; try reflexivity.
  - unfold MeasurementFilter.alike. cbn. split_conjs; try reflexivity.
    + exact A7.
    + intros Hi; discriminate.
  - intros Enz. split; [ | reflexivity ]. apply A8. congruence.
Qed.

(** Controllers constructed alike up to the setpoint weight, with
    [ki = 0], are alike. *)
Lemma new_alike_weights (kp kd TfTs umin umax u0 b b' : R) :
  alike (new kp 0 kd TfTs umin umax u0 b) (new kp 0 kd TfTs umin umax u0 b').
Proof.
  unfold alike. cbn [new kp_ ki_ kd_ umin_ umax_ u0_ b_ u_old_ up_old_
                     ud_old_ uff_old_ filter_].
  split_conjs; try reflexivity.
  - apply FilterFacts.alike_refl.
  - intros H; now elim H.
Qed.

(** The P/PD block on a controller with [ki == 0]. *)
Lemma p_or_pd_reset_zero (c : PIDController.t) :
  ki_ c = 0 ->
  u_old_ (p_or_pd_reset c) = u0_ c /\ up_old_ (p_or_pd_reset c) = 0 /\
  ud_old_ (p_or_pd_reset c) = 0 /\ uff_old_ (p_or_pd_reset c) = 0 /\
  b_ (p_or_pd_reset c) = 1.
Proof.
  intros Hz. unfold p_or_pd_reset.
  destruct (Req_dec_T (ki_ c) 0); [ | contradiction ].
  cbn. split_conjs; reflexivity.
Qed.

(** C8.  Setpoint-weight noninterference under [ki = 0]: two controllers
    constructed with the same [kp], [kd], [TfTs], [umin], [umax], [u0],
    with [ki = 0] and with setpoint weights [b] and [b'], return the same
    sequence of control signals on every sequence of ticks (automatic,
    manual and tracking ticks mixed at will); on an automatic tick the
    P/PD block of such a controller forces [u_old = u0],
    [up_old = ud_old = uff_old = 0] and [b = 1]. *)
Theorem setpoint_weight_noninterference :
  forall (kp kd TfTs umin umax u0 b b' : R) (s : list Tick.t),
    fst (run (new kp 0 kd TfTs umin umax u0 b) s)
    = fst (run (new kp 0 kd TfTs umin umax u0 b') s) /\
    (forall c : PIDController.t,
        ki_ c = 0 ->
        u_old_ (p_or_pd_reset c) = u0_ c /\
        up_old_ (p_or_pd_reset c) = 0 /\
        ud_old_ (p_or_pd_reset c) = 0 /\
        uff_old_ (p_or_pd_reset c) = 0 /\
        b_ (p_or_pd_reset c) = 1).
Proof.
  intros kp kd TfTs umin umax u0 b b' s. split.
  - apply run_alike, new_alike_weights.
  - apply p_or_pd_reset_zero.
Qed.

(** C9 (as the specification states it) fails for [b]: a P controller
    constructed with setpoint weight [1/2] has setpoint weight [1] after
    one automatic tick. *)
Lemma setpoint_weight_overwritten :
  let c := new 1 0 0 10 (-10) 10 0 (1/2) in
  let c' := snd (call c 0 0 0 0 0 1 false true NONE) in
  b_ c = 1/2 /\ b_ c' = 1 /\ b_ c' <> b_ c.
Proof.
  cbv zeta.
  pose proof (call_frame (new 1 0 0 10 (-10) 10 0 (1/2))
                0 0 0 0 0 1 false true NONE) as F.
  cbv zeta in F. destruct F as (_ & _ & _ & _ & _ & _ & _ & Hb).
  cbn [new ki_ b_] in Hb.
  destruct (Req_dec_T 0 0) as [_ | N]; [ | now elim N ].
  rewrite Hb. cbn [new b_]. split_conjs; try reflexivity. lra.
Qed.

(** C9, amended.  The fields [kp], [ki], [kd], [TfTs], [umin], [umax] and
    [u0] have the same value after every call of [operator()] as before
    it.  The setpoint weight [b] has the same value after every call with
    [auto_mode = false] and after every call of a controller with
    [ki <> 0]; after a call with [auto_mode = true] of a controller with
    [ki == 0] it is [1]. *)
Theorem configuration_frame :
  forall (c : PIDController.t) (r y uff uman utrack Tx : R)
         (track auto_mode : bool) (windup : WindupMode),
    let c' := snd (call c r y uff uman utrack Tx track auto_mode windup) in
    kp_ c' = kp_ c /\ ki_ c' = ki_ c /\ kd_ c' = kd_ c /\
    MeasurementFilter.TfTs_ (filter_ c')
      = MeasurementFilter.TfTs_ (filter_ c) /\
    umin_ c' = umin_ c /\ umax_ c' = umax_ c /\ u0_ c' = u0_ c /\
    (auto_mode = false \/ ki_ c <> 0 -> b_ c' = b_ c) /\
    (auto_mode = true /\ ki_ c = 0 -> b_ c' = 1).
Proof.
  intros c r y uff uman utrack Tx track auto_mode windup c'.
  destruct (call_frame c r y uff uman utrack Tx track auto_mode windup)
    as (Hkp & Hki & Hkd & Hmin & Hmax & Hu0 & HT & Hb).
  fold c' in Hkp, Hki, Hkd, Hmin, Hmax, Hu0, HT, Hb.
  split_conjs; try assumption.
  - intros [Hm | Hnz]; rewrite Hb.
    + now rewrite Hm.
    + destruct auto_mode; [ | reflexivity ].
      destruct (Req_dec_T (ki_ c) 0); [ contradiction | reflexivity ].
  - intros [Ha Hz]. rewrite Hb, Ha.
    destruct (Req_dec_T (ki_ c) 0); [ reflexivity | contradiction ].
Qed.

(** C10.  Reset restores fresh behaviour: for every configuration and
    every two sequences of ticks [s] and [s'], a controller that has
    processed [s] and is then reset returns on [s'] the very control
    signals that a freshly constructed controller with the same
    configuration returns on [s'], although [reset()] restores neither
    the setpoint weight nor the filter's cached coefficients. *)
Theorem reset_restores_fresh_behaviour :
  forall (kp ki kd TfTs umin umax u0 b : R) (s s' : list Tick.t),
    let fresh := new kp ki kd TfTs umin umax u0 b in
    let used := snd (run fresh s) in
    fst (run (reset used) s') = fst (run fresh s') /\
    b_ (reset used) = b_ used /\
    MeasurementFilter.params (filter_ (reset used))
      = MeasurementFilter.params (filter_ used).
Proof.
  intros kp ki kd TfTs umin umax u0 b s s' fresh used.
  split; [ apply run_alike, reset_alike_new | ].
  split; reflexivity.
Qed.

(* ================================================================== *)
(** * Further consequences *)

(** Saturation along a whole run: every control signal of a sequence of
    ticks lies within the bounds, no divisor of the code being zero. *)
Lemma saturation_all_ticks (s : list Tick.t) :
  forall c : PIDController.t,
    umin_ c <= umax_ c ->
    MeasurementFilter.TfTs_ (filter_ c) <> 0 ->
    Forall (fun i : Tick.t => Tick.Tx i <> 0) s ->
    Forall (fun u : R => umin_ c <= u <= umax_ c) (fst (run c s)).
Proof.
  induction s as [ | i s IH ]; intros c Hb HT Hx.
  - constructor.
  - rewrite run_cons. cbn [fst].
    destruct (step_same_config c i) as (_ & _ & _ & Hmin & Hmax & _ & HT' & _).
    inversion Hx as [ | ? ? _ Hx' ]; subst.
    constructor.
    + unfold step. rewrite call_output. now apply saturate_bounds.
    + rewrite <- Hmin, <- Hmax. apply IH.
      * now rewrite Hmin, Hmax.
      * now rewrite HT'.
      * exact Hx'.
Qed.

(** Determinism: the control signals are a function of the constructor
    arguments and of the sequence of ticks. *)
Lemma run_deterministic (c d : PIDController.t) (s : list Tick.t) :
  c = d -> fst (run c s) = fst (run d s).
Proof. intros ->. reflexivity. Qed.

(** The first tick of the P-only controller of the test suite
    ([kp = 1], [ki = kd = 0], [TfTs = 10], bounds [-10] and [10]) from
    the constructed state, with [r = 0] and [y = 0.497]: the filter
    starts cold, [yf = b1 * y], and the control signal is [- yf], about
    [-0.0023254], inside the bounds. *)
Example first_tick_P_step :
  let u := fst (call (new 1 0 0 10 (-10) 10 0 1)
                  0 (497 / 1000) 0 0 0 1 false true NONE) in
  u = - (b1 (zoh_Fy 10 1) * (497 / 1000)) /\
  approx u (- (23254 / 10000000)) (1 / 10000000).
Proof.
  cbv zeta.
  pose proof exp_tenth_bounds as [Hl Hu].
  rewrite call_output.
  unfold unsaturated, p_or_pd_reset, tracking, MeasurementFilter.call.
  cbn [new filter_ set_filter ki_ MeasurementFilter.new
       MeasurementFilter.initialized_ negb orb].
  destruct (Req_dec_T 0 0) as [_ | N]; [ | now elim N ].
  cbn. unfold zoh_Fy. cbn [b1].
  set (h := exp (- (1 / 10))) in *.
  rewrite saturate_inside by lra.
  split; [ lra | ].
  unfold approx. apply Rabs_le. lra.
Qed.

(** Two manual ticks of a PI controller with bounds [-10] and [10]: a
    manual signal inside the bounds is returned as it is, one above the
    upper bound is returned as the upper bound. *)
Example manual_ticks :
  fst (call (new 1 (1/2) 0 10 (-10) 10 0 1) 1 0 0 2 0 1 false false NONE)
  = 2 /\
  fst (call (new 1 (1/2) 0 10 (-10) 10 0 1) 1 0 0 20 0 1 false false NONE)
  = 10.
Proof.
  rewrite !call_output. cbn [unsaturated fst new umin_ umax_].
  unfold Std.max, Std.min.
  split.
  - destruct (Rlt_dec 10 2); [ lra | ]. destruct (Rlt_dec 2 (-10)); lra.
  - destruct (Rlt_dec 10 20); [ | lra ]. destruct (Rlt_dec 10 (-10)); lra.
Qed.

(* ================================================================== *)
(** * More on the anti-windup rule *)

Lemma std_max_0_cases (x : R) :
  (x < 0 /\ Std.max x 0 = 0) \/ (0 <= x /\ Std.max x 0 = x).
Proof. unfold Std.max. destruct (Rlt_dec x 0); [ left | right ]; lra. Qed.

Lemma std_min_0_cases (x : R) :
  (0 < x /\ Std.min x 0 = 0) \/ (x <= 0 /\ Std.min x 0 = x).
Proof. unfold Std.min. destruct (Rlt_dec 0 x); [ left | right ]; lra. Qed.

(** The value of the rule, mode by mode and sign by sign. *)
Lemma anti_windup_cases (Dui : R) (w : WindupMode) :
  anti_windup Dui w =
  match w with
  | NONE => Dui
  | UPPER => if Rlt_dec 0 Dui then 0 else Dui
  | LOWER => if Rlt_dec Dui 0 then 0 else Dui
  | BOTH => 0
  end.
Proof.
  destruct w.
  - reflexivity.
  - reflexivity.
  - reflexivity.
  - apply anti_windup_BOTH.
Qed.

(** X1.  The anti-windup rule only ever passes the increment on or
    replaces it by zero: its result is [Dui] or [0], never larger in
    magnitude than [Dui]; it is non-negative under [LOWER] and [BOTH],
    non-positive under [UPPER] and [BOTH]; and an increment that points
    away from the flagged limit is passed on unchanged. *)
Theorem anti_windup_shape :
  forall (Dui : R) (w : WindupMode),
    (anti_windup Dui w = Dui \/ anti_windup Dui w = 0) /\
    Rabs (anti_windup Dui w) <= Rabs Dui /\
    (w = LOWER \/ w = BOTH -> 0 <= anti_windup Dui w) /\
    (w = UPPER \/ w = BOTH -> anti_windup Dui w <= 0) /\
    (w = LOWER -> 0 <= Dui -> anti_windup Dui w = Dui) /\
    (w = UPPER -> Dui <= 0 -> anti_windup Dui w = Dui).
Proof.
  intros Dui w. rewrite anti_windup_cases.
  pose proof (Rabs_pos Dui) as Hp.
  destruct w; split_conjs;
    try (intros [E | E]; try discriminate E);
    try (intros E; try discriminate E; intros Hs);
    try destruct (Rlt_dec 0 Dui); try destruct (Rlt_dec Dui 0);
    try rewrite Rabs_R0; try lra; auto.
Qed.

(** X2.  The anti-windup rule is idempotent and monotone: applying it
    again under the same mode changes nothing, and a larger increment
    never gives a smaller result. *)
Theorem anti_windup_idempotent_monotone :
  forall w : WindupMode,
    (forall Dui : R,
        anti_windup (anti_windup Dui w) w = anti_windup Dui w) /\
    (forall Dui Dui' : R,
        Dui <= Dui' -> anti_windup Dui w <= anti_windup Dui' w).
Proof.
  intros w. split.
  - intros Dui. rewrite !anti_windup_cases.
    destruct w; try reflexivity.
    + destruct (Rlt_dec 0 Dui); [ destruct (Rlt_dec 0 0) | ]; try lra.
      destruct (Rlt_dec 0 Dui); [ contradiction | reflexivity ].
    + destruct (Rlt_dec Dui 0); [ destruct (Rlt_dec 0 0) | ]; try lra.
      destruct (Rlt_dec Dui 0); [ contradiction | reflexivity ].
  - intros Dui Dui' Hle. rewrite !anti_windup_cases.
    destruct w; try lra.
    + destruct (Rlt_dec 0 Dui), (Rlt_dec 0 Dui'); lra.
    + destruct (Rlt_dec Dui 0), (Rlt_dec Dui' 0); lra.
Qed.

(* ================================================================== *)
(** * More on the saturation line *)

Lemma saturate_monotone (u v umin umax : R) :
  u <= v ->
  Std.max (Std.min u umax) umin <= Std.max (Std.min v umax) umin.
Proof.
  intros Hle. unfold Std.max, Std.min.
  destruct (Rlt_dec umax u), (Rlt_dec umax v);
    repeat match goal with
           | |- context [Rlt_dec ?a ?b] => destruct (Rlt_dec a b)
           end; lra.
Qed.

Lemma saturate_crossed (u umin umax : R) :
  umax < umin -> Std.max (Std.min u umax) umin = umin.
Proof.
  intros Hx. unfold Std.max, Std.min.
  destruct (Rlt_dec umax u);
    [ destruct (Rlt_dec umax umin) | destruct (Rlt_dec u umin) ]; lra.
Qed.

(** X3.  Crossed bounds: the constructor accepts [umin > umax], and a
    controller so configured returns [umin] from every call with
    [Tx <> 0] (its filter's time constant not being zero), whatever its
    state, its mode and its other arguments. *)
Theorem crossed_bounds_return_umin :
  forall (c : PIDController.t) (r y uff uman utrack Tx : R)
         (track auto_mode : bool) (windup : WindupMode),
    umax_ c < umin_ c ->
    Tx <> 0 ->
    MeasurementFilter.TfTs_ (filter_ c) <> 0 ->
    fst (call c r y uff uman utrack Tx track auto_mode windup) = umin_ c.
Proof.
  intros c r y uff uman utrack Tx track auto_mode windup Hx _ _.
  rewrite call_output. now apply saturate_crossed.
Qed.

Lemma crossed_bounds_return_umin_witness :
  5 < 7 /\ (1 : R) <> 0 /\ (10 : R) <> 0 /\
  fst (call (new 1 (1/2) 0 10 7 5 0 1) 1 0 0 6 0 1 false true NONE) = 7.
Proof.
  assert (H : umax_ (new 1 (1/2) 0 10 7 5 0 1)
              < umin_ (new 1 (1/2) 0 10 7 5 0 1)) by (simpl; lra).
  assert (H1 : (1 : R) <> 0) by lra.
  assert (H10 : MeasurementFilter.TfTs_
                  (filter_ (new 1 (1/2) 0 10 7 5 0 1)) <> 0)
    by (simpl; lra).
  split; [ exact H | ]. split; [ exact H1 | ]. split; [ exact H10 | ].
  exact (crossed_bounds_return_umin (new 1 (1/2) 0 10 7 5 0 1)
           1 0 0 6 0 1 false true NONE H H1 H10).
Defined.

(* ================================================================== *)
(** * More on the discretizer *)

Lemma exp_neg_unit (h : R) : 0 < h -> 0 < exp (- h) < 1.
Proof.
  intros Hh. split; [ apply exp_pos | ].
  rewrite <- exp_0. apply exp_increasing. lra.
Qed.

Lemma exp_neg_tangent (h : R) : 0 < h -> (1 + h) * exp (- h) < 1.
Proof.
  intros Hh.
  assert (H1 : 1 + h < exp h) by (apply exp_ineq1; lra).
  assert (Hp : 0 < exp h) by apply exp_pos.
  rewrite exp_Ropp.
  apply Rmult_lt_reg_r with (exp h); [ exact Hp | ].
  rewrite Rmult_assoc, Rinv_l by lra. lra.
Qed.

(** X4.  The coefficients for valid arguments: for [TfTs > 0] and
    [Tx > 0], [a11], [a12] and [b1] lie strictly between 0 and 1, [b2]
    is positive and [a21] is its negative, [a22] is below [a12]; and the
    input coefficients complete the first column of the state matrix:
    [a11 + b1 = 1] and [a21 + b2 = 0]. *)
Theorem zoh_Fy_coefficient_ranges :
  forall TfTs Tx : R,
    0 < TfTs -> 0 < Tx ->
    let p := zoh_Fy TfTs Tx in
    0 < a11 p < 1 /\ 0 < a12 p < 1 /\ 0 < b1 p < 1 /\
    0 < b2 p /\ a21 p = - b2 p /\ a22 p < a12 p /\
    a11 p + b1 p = 1 /\ a21 p + b2 p = 0.
Proof.
  intros TfTs Tx HT Hx. cbv zeta. unfold zoh_Fy.
  cbn [a11 a12 a21 a22 b1 b2].
  assert (Hh : 0 < Tx / TfTs) by now apply Rdiv_lt_0_compat.
  set (h := Tx / TfTs) in *.
  pose proof (exp_neg_unit h Hh) as [He0 He1].
  pose proof (exp_neg_tangent h Hh) as Ht.
  set (e := exp (- h)) in *.
  assert (Hhe : 0 < h * e) by now apply Rmult_lt_0_compat.
  assert (Hb2 : 0 < h * e / TfTs) by now apply Rdiv_lt_0_compat.
  split_conjs; lra.
Qed.

Lemma zoh_Fy_coefficient_ranges_witness :
  0 < 10 /\ 0 < 1 /\ 0 < b1 (zoh_Fy 10 1) < 1 /\
  a11 (zoh_Fy 10 1) + b1 (zoh_Fy 10 1) = 1.
Proof.
  assert (H10 : 0 < 10) by lra.
  assert (H1 : 0 < 1) by lra.
  pose proof (zoh_Fy_coefficient_ranges 10 1 H10 H1) as H.
  cbv zeta in H. destruct H as (_ & _ & Hb1 & _ & _ & _ & Hsum & _).
  exact (conj H10 (conj H1 (conj Hb1 Hsum))).
Defined.

(* ================================================================== *)
(** * More on the measurement filter *)

Module FilterRunFacts.

Import MeasurementFilter FilterRun.

Lemma run_step (f : t) (y Tx : R) (l : list (R * R)) :
  run f ((y, Tx) :: l) =
  (output (call f y Tx) :: fst (fst (run (state (call f y Tx)) l)),
   snd (fst (run (state (call f y Tx)) l)),
   zoh_calls (call f y Tx) ++ snd (run (state (call f y Tx)) l)).
Proof.
  cbn [run]. destruct (run (state (call f y Tx)) l) as [[outs f'] calls].
  reflexivity.
Qed.

(** The cache invariant is kept by [operator()]. *)
Lemma call_cache_valid (f : t) (y Tx : R) :
  cache_valid f -> cache_valid (state (call f y Tx)).
Proof.
  intros Hc _. exists Tx.
  destruct (FilterFacts.call_post f y Tx) as (HT & _ & Ho & _).
  split; [ exact Ho | ]. rewrite HT. now apply FilterFacts.call_params.
Qed.

Lemma new_cache_valid (TfTs : R) : cache_valid (new TfTs).
Proof. intros H; discriminate H. Qed.

Lemma reset_cache_valid (f : t) : cache_valid (reset f).
Proof. intros H; discriminate H. Qed.

(** The output of a call from the coefficients the call leaves behind. *)
Lemma call_output_eq (f : t) (y Tx : R) (p : FilterParams) :
  params (state (call f y Tx)) = p ->
  output (call f y Tx) =
  {| yf := a11 p * yf_ f + a12 p * dyf_ f + b1 p * y;
     dyf := a21 p * yf_ f + a22 p * dyf_ f + b2 p * y |}.
Proof.
  intros Hp.
  destruct (FilterFacts.call_post f y Tx) as (_ & _ & _ & Hy & Hd & Hout).
  rewrite Hout, Hy, Hd. subst p. reflexivity.
Qed.

Lemma call_state_eq (f : t) (y Tx : R) :
  yf_ (state (call f y Tx)) = yf (output (call f y Tx)) /\
  dyf_ (state (call f y Tx)) = dyf (output (call f y Tx)).
Proof.
  destruct (FilterFacts.call_post f y Tx) as (_ & _ & _ & _ & _ & Hout).
  rewrite Hout. split; reflexivity.
Qed.

(** Unity gain: a filter settled on [y] stays settled on [y]. *)
Lemma call_settled (f : t) (y Tx : R) :
  cache_valid f -> yf_ f = y -> dyf_ f = 0 ->
  output (call f y Tx) = {| yf := y; dyf := 0 |}.
Proof.
  intros Hc Hy Hd.
  rewrite (call_output_eq f y Tx (zoh_Fy (TfTs_ f) Tx))
    by now apply FilterFacts.call_params.
  rewrite Hy, Hd. unfold zoh_Fy. cbn [a11 a12 a21 a22 b1 b2].
  f_equal; ring.
Qed.

Lemma run_settled (y : R) (txs : list R) :
  forall f : t,
    cache_valid f -> yf_ f = y -> dyf_ f = 0 ->
    fst (fst (run f (map (fun Tx => (y, Tx)) txs)))
    = map (fun _ => {| yf := y; dyf := 0 |}) txs.
Proof.
  induction txs as [ | Tx txs IH ]; intros f Hc Hy Hd.
  - reflexivity.
  - cbn [map]. rewrite run_step. cbn [fst].
    pose proof (call_settled f y Tx Hc Hy Hd) as Hout.
    destruct (call_state_eq f y Tx) as [Ey Ed].
    rewrite Hout in Ey, Ed. cbn [yf dyf] in Ey, Ed.
    rewrite Hout. f_equal.
    apply IH; [ now apply call_cache_valid | exact Ey | exact Ed ].
Qed.

(** The discretizer calls of a run on a filter that has been called with
    the execution period [prev] last. *)
Lemma run_calls_from (l : list (R * R)) :
  forall (f : t) (prev : R),
    initialized_ f = true -> Tx_old_ f = Some prev ->
    snd (run f l)
    = map (fun Tx => (TfTs_ f, Tx)) (changes_from prev (map snd l)).
Proof.
  induction l as [ | [y Tx] l IH ]; intros f prev Hi Ho.
  - reflexivity.
  - rewrite run_step. cbn [snd map changes_from].
    destruct (FilterFacts.call_post f y Tx) as (HT & Hi' & Ho' & _).
    rewrite (IH (state (call f y Tx)) Tx Hi' Ho'), HT.
    rewrite map_app. f_equal.
    destruct (Req_dec_T Tx prev) as [E | E].
    + subst prev. now apply FilterFacts.call_keeps_cache.
    + apply FilterFacts.call_rediscretizes. right.
      rewrite Ho. intros H. inversion H. now elim E.
Qed.

Lemma run_calls_uninitialized (l : list (R * R)) (f : t) :
  initialized_ f = false ->
  snd (run f l) = map (fun Tx => (TfTs_ f, Tx)) (block_heads (map snd l)).
Proof.
  intros Hi. destruct l as [ | [y Tx] l ]; [ reflexivity | ].
  rewrite run_step. cbn [snd map block_heads].
  destruct (FilterFacts.call_post f y Tx) as (HT & Hi' & Ho' & _).
  rewrite (run_calls_from l (state (call f y Tx)) Tx Hi' Ho'), HT.
  destruct (FilterFacts.call_rediscretizes f y Tx (or_introl Hi))
    as [Hc _].
  rewrite Hc. reflexivity.
Qed.

Lemma changes_from_constant (Tx : R) (n : nat) :
  changes_from Tx (repeat Tx n) = [].
Proof.
  induction n as [ | n IH ]; [ reflexivity | ].
  cbn [repeat changes_from].
  destruct (Req_dec_T Tx Tx) as [_ | N]; [ exact IH | now elim N ].
Qed.

(** Filters with the same time constant and bookkeeping hold the same
    coefficients after a call with the same execution period. *)
Lemma call_params_agree (f h : t) (y y' Tx : R) :
  TfTs_ f = TfTs_ h -> Tx_old_ f = Tx_old_ h ->
  initialized_ f = initialized_ h ->
  (initialized_ h = true -> params f = params h) ->
  params (state (call f y Tx)) = params (state (call h y' Tx)).
Proof.
  intros HT Ho Hi Hp.
  destruct (negb (initialized_ f) || ne Tx (Tx_old_ f)) eqn:G.
  - assert (G' := G). rewrite Hi, Ho in G'.
    apply FilterFacts.guard_true in G, G'.
    destruct (FilterFacts.call_rediscretizes f y Tx G) as [_ ->].
    destruct (FilterFacts.call_rediscretizes h y' Tx G') as [_ ->].
    now rewrite HT.
  - assert (G' := G). rewrite Hi, Ho in G'.
    apply FilterFacts.guard_false in G, G'.
    destruct G as [Gi Go], G' as [Gi' Go'].
    destruct (FilterFacts.call_keeps_cache f y Tx Gi Go) as [_ ->].
    destruct (FilterFacts.call_keeps_cache h y' Tx Gi' Go') as [_ ->].
    now apply Hp.
Qed.

(** Linearity of one call. *)
Lemma call_combines (alpha beta : R) (f g h : t) (y1 y2 Tx : R) :
  combines alpha beta f g h ->
  yf (output (call h (alpha * y1 + beta * y2) Tx))
  = alpha * yf (output (call f y1 Tx))
    + beta * yf (output (call g y2 Tx)) /\
  dyf (output (call h (alpha * y1 + beta * y2) Tx))
  = alpha * dyf (output (call f y1 Tx))
    + beta * dyf (output (call g y2 Tx)) /\
  combines alpha beta
    (state (call f y1 Tx)) (state (call g y2 Tx))
    (state (call h (alpha * y1 + beta * y2) Tx)).
Proof.
  intros (HTf & HTg & Hof & Hog & Hif & Hig & Hp & Hy & Hd).
  set (y3 := alpha * y1 + beta * y2).
  set (p := params (state (call h y3 Tx))).
  assert (Pf : params (state (call f y1 Tx)) = p).
  { apply call_params_agree; auto. intros E. now apply Hp. }
  assert (Pg : params (state (call g y2 Tx)) = p).
  { apply call_params_agree; auto. intros E. now apply Hp. }
  pose proof (call_output_eq f y1 Tx p Pf) as Of.
  pose proof (call_output_eq g y2 Tx p Pg) as Og.
  pose proof (call_output_eq h y3 Tx p eq_refl) as Oh.
  assert (Ey : yf (output (call h y3 Tx))
               = alpha * yf (output (call f y1 Tx))
                 + beta * yf (output (call g y2 Tx))).
  { rewrite Of, Og, Oh. cbn [yf]. rewrite Hy, Hd. unfold y3. ring. }
  assert (Ed : dyf (output (call h y3 Tx))
               = alpha * dyf (output (call f y1 Tx))
                 + beta * dyf (output (call g y2 Tx))).
  { rewrite Of, Og, Oh. cbn [dyf]. rewrite Hy, Hd. unfold y3. ring. }
  split; [ exact Ey | ]. split; [ exact Ed | ].
  destruct (FilterFacts.call_post f y1 Tx) as (HT1 & Hi1 & Ho1 & _).
  destruct (FilterFacts.call_post g y2 Tx) as (HT2 & Hi2 & Ho2 & _).
  destruct (FilterFacts.call_post h y3 Tx) as (HT3 & Hi3 & Ho3 & _).
  destruct (call_state_eq f y1 Tx) as [Sf1 Sf2].
  destruct (call_state_eq g y2 Tx) as [Sg1 Sg2].
  destruct (call_state_eq h y3 Tx) as [Sh1 Sh2].
  unfold combines. split_conjs; try congruence.
  intros _. split; [ exact Pf | exact Pg ].
Qed.

End FilterRunFacts.

(** X5.  Zero execution period: a call with [Tx = 0] on a filter whose
    cache is valid and whose time constant is not zero ignores the
    measurement: it returns [yf + dyf] and [dyf] of the state before the
    call, whatever [y] is. *)
Theorem filter_zero_period :
  forall (f : MeasurementFilter.t) (y : R),
    MeasurementFilter.cache_valid f ->
    MeasurementFilter.TfTs_ f <> 0 ->
    MeasurementFilter.output (MeasurementFilter.call f y 0)
    = {| yf := MeasurementFilter.yf_ f + MeasurementFilter.dyf_ f;
         dyf := MeasurementFilter.dyf_ f |}.
Proof.
  intros f y Hc _.
  rewrite (FilterRunFacts.call_output_eq f y 0
             (zoh_Fy (MeasurementFilter.TfTs_ f) 0))
    by now apply FilterFacts.call_params.
  unfold zoh_Fy. cbn [a11 a12 a21 a22 b1 b2].
  replace (0 / MeasurementFilter.TfTs_ f) with 0 by (unfold Rdiv; ring).
  rewrite Ropp_0, exp_0. f_equal; unfold Rdiv; ring.
Qed.

(** A filter that has run one tick, then called with [Tx = 0]. *)
Lemma filter_zero_period_witness :
  let f := MeasurementFilter.state
             (MeasurementFilter.call (MeasurementFilter.new 10) 1 1) in
  MeasurementFilter.cache_valid f /\
  MeasurementFilter.TfTs_ f <> 0 /\
  MeasurementFilter.output (MeasurementFilter.call f 5 0)
  = {| yf := MeasurementFilter.yf_ f + MeasurementFilter.dyf_ f;
       dyf := MeasurementFilter.dyf_ f |}.
Proof.
  intros f.
  assert (Hc : MeasurementFilter.cache_valid f).
  { apply FilterRunFacts.call_cache_valid, FilterRunFacts.new_cache_valid. }
  assert (HT : MeasurementFilter.TfTs_ f <> 0) by (simpl; lra).
  exact (conj Hc (conj HT (filter_zero_period f 5 Hc HT))).
Defined.

(** X6.  Unity gain: a filter with a time constant that is not zero,
    whose cache is valid and that is settled on a value ([yf = y],
    [dyf = 0]), returns [(y, 0)] on every call of a sequence that keeps
    feeding it [y], whatever the execution periods are and however often
    they change. *)
Theorem filter_unity_gain :
  forall (f : MeasurementFilter.t) (y : R) (txs : list R),
    MeasurementFilter.TfTs_ f <> 0 ->
    MeasurementFilter.cache_valid f ->
    MeasurementFilter.yf_ f = y ->
    MeasurementFilter.dyf_ f = 0 ->
    fst (fst (FilterRun.run f (map (fun Tx => (y, Tx)) txs)))
    = map (fun _ => {| yf := y; dyf := 0 |}) txs.
Proof.
  intros f y txs _ Hc Hy Hd. now apply FilterRunFacts.run_settled.
Qed.

(** An uninitialized filter holding [yf = 3], fed [3] at three different
    periods. *)
Lemma filter_unity_gain_witness :
  let f := MeasurementFilter.mk 10 0 0 0 0 0 0 3 0 None false in
  MeasurementFilter.TfTs_ f <> 0 /\
  MeasurementFilter.cache_valid f /\
  fst (fst (FilterRun.run f [(3, 1); (3, 2); (3, 1)]))
  = [ {| yf := 3; dyf := 0 |}; {| yf := 3; dyf := 0 |};
      {| yf := 3; dyf := 0 |} ].
Proof.
  intros f.
  assert (HT : MeasurementFilter.TfTs_ f <> 0) by (simpl; lra).
  assert (Hc : MeasurementFilter.cache_valid f)
    by (intros E; discriminate E).
  split; [ exact HT | ]. split; [ exact Hc | ].
  exact (filter_unity_gain f 3 [1; 2; 1] HT Hc eq_refl eq_refl).
Defined.

(** X7.  Linearity: when the state of a filter is the combination
    [alpha * f + beta * g] of the states of two filters with the same
    time constant, bookkeeping and coefficients, a call with the
    measurement [alpha * y1 + beta * y2] returns that combination of
    what [f] returns on [y1] and [g] on [y2], and the three filters are
    in the same relation afterwards (the time constant not being
    zero). *)
Theorem filter_linear :
  forall (alpha beta : R) (f g h : MeasurementFilter.t) (y1 y2 Tx : R),
    MeasurementFilter.TfTs_ h <> 0 ->
    FilterRun.combines alpha beta f g h ->
    let o1 := MeasurementFilter.output (MeasurementFilter.call f y1 Tx) in
    let o2 := MeasurementFilter.output (MeasurementFilter.call g y2 Tx) in
    let o3 := MeasurementFilter.output
                (MeasurementFilter.call h (alpha * y1 + beta * y2) Tx) in
    yf o3 = alpha * yf o1 + beta * yf o2 /\
    dyf o3 = alpha * dyf o1 + beta * dyf o2 /\
    FilterRun.combines alpha beta
      (MeasurementFilter.state (MeasurementFilter.call f y1 Tx))
      (MeasurementFilter.state (MeasurementFilter.call g y2 Tx))
      (MeasurementFilter.state
         (MeasurementFilter.call h (alpha * y1 + beta * y2) Tx)).
Proof.
  intros alpha beta f g h y1 y2 Tx _ H. cbv zeta.
  now apply FilterRunFacts.call_combines.
Qed.

(** Three freshly constructed filters: the output on [2*1 + 3*4] is twice
    the output on [1] plus three times the output on [4]. *)
Lemma filter_linear_witness :
  let n := MeasurementFilter.new 10 in
  MeasurementFilter.TfTs_ n <> 0 /\
  FilterRun.combines 2 3 n n n /\
  yf (MeasurementFilter.output (MeasurementFilter.call n (2 * 1 + 3 * 4) 1))
  = 2 * yf (MeasurementFilter.output (MeasurementFilter.call n 1 1))
    + 3 * yf (MeasurementFilter.output (MeasurementFilter.call n 4 1)).
Proof.
  intros n.
  assert (H : FilterRun.combines 2 3 n n n).
  { unfold FilterRun.combines. cbn.
    split_conjs; try reflexivity; try lra; intros E; discriminate E. }
  assert (HT : MeasurementFilter.TfTs_ n <> 0) by (simpl; lra).
  split; [ exact HT | ]. split; [ exact H | ].
  exact (proj1 (filter_linear 2 3 n n n 1 4 1 HT H)).
Defined.

(** X8.  Discretizer calls of a run: on a freshly constructed filter, and
    on any filter after [reset()], a sequence of calls invokes the
    discretizer exactly at the first call and at every later call whose
    execution period differs from that of the call before it, each time
    with the filter's time constant and that call's period; so a
    sequence with one constant period invokes it once. *)
Theorem discretizer_calls_of_run :
  forall (TfTs : R) (f : MeasurementFilter.t) (l : list (R * R)),
    snd (FilterRun.run (MeasurementFilter.new TfTs) l)
    = map (fun Tx => (TfTs, Tx)) (FilterRun.block_heads (map snd l)) /\
    snd (FilterRun.run (MeasurementFilter.reset f) l)
    = map (fun Tx => (MeasurementFilter.TfTs_ f, Tx))
        (FilterRun.block_heads (map snd l)) /\
    (forall (Tx : R) (n : nat),
        FilterRun.block_heads (repeat Tx (S n)) = [Tx]).
Proof.
  intros TfTs f l. split_conjs.
  - now apply (FilterRunFacts.run_calls_uninitialized l
                 (MeasurementFilter.new TfTs)).
  - now apply (FilterRunFacts.run_calls_uninitialized l
                 (MeasurementFilter.reset f)).
  - intros Tx n. cbn [repeat FilterRun.block_heads].
    now rewrite FilterRunFacts.changes_from_constant.
Qed.

(* ================================================================== *)
(** * More on one call of the controller *)

Lemma anti_windup_zero (w : WindupMode) : anti_windup 0 w = 0.
Proof.
  rewrite anti_windup_cases.
  destruct w; try reflexivity; destruct (Rlt_dec 0 0); lra.
Qed.

(** The value before saturation on an automatic tick of a controller
    without integral action. *)
Lemma unsaturated_p_or_pd (c : PIDController.t)
    (yf dyf r uff uman utrack Tx : R) (track : bool) (windup : WindupMode) :
  ki_ c = 0 ->
  fst (unsaturated c yf dyf r uff uman utrack Tx track true windup)
  = (if track then utrack else u0_ c)
    + kp_ c * (r - yf) + - kd_ c * dyf / Tx + uff.
Proof.
  intros Hz. unfold unsaturated, p_or_pd_reset, tracking.
  destruct (Req_dec_T (ki_ c) 0) as [_ | N]; [ | contradiction ].
  destruct track;
    cbn [fst set_old set_b kp_ ki_ kd_ b_ u_old_ up_old_ ud_old_ uff_old_];
    rewrite Hz;
    replace (0 * (r - yf) * Tx) with 0 by ring;
    rewrite anti_windup_zero; unfold Rdiv; ring.
Qed.

(** X9.  Positional P/PD law: on an automatic tick of a controller with
    [ki == 0] the control signal is the clamp of
    [u0 + kp*(r - yf) - kd*dyf/Tx + uff] ([utrack] in place of [u0] when
    tracking), with this tick's filter outputs; it depends neither on
    the four stored signal states, nor on the configured setpoint
    weight, nor on the windup flag. *)
Theorem p_or_pd_positional_law :
  forall (c : PIDController.t) (r y uff uman utrack Tx : R)
         (track : bool) (windup : WindupMode),
    ki_ c = 0 ->
    let filtered :=
      MeasurementFilter.output (MeasurementFilter.call (filter_ c) y Tx) in
    fst (call c r y uff uman utrack Tx track true windup)
    = clamp ((if track then utrack else u0_ c)
             + kp_ c * (r - yf filtered)
             + - kd_ c * dyf filtered / Tx + uff)
        (umin_ c) (umax_ c).
Proof.
  intros c r y uff uman utrack Tx track windup Hz filtered.
  rewrite call_output, unsaturated_p_or_pd by exact Hz.
  apply saturate_clamp.
Qed.

(** A PD controller with bias [3] and setpoint weight [1/2]. *)
Lemma p_or_pd_positional_law_witness :
  let c := new 2 0 (1/4) 10 (-10) 10 3 (1/2) in
  let filtered :=
    MeasurementFilter.output (MeasurementFilter.call (filter_ c) 1 1) in
  ki_ c = 0 /\
  fst (call c 2 1 0 0 0 1 false true UPPER)
  = clamp (3 + 2 * (2 - yf filtered) + - (1/4) * dyf filtered / 1 + 0)
      (-10) 10.
Proof.
  intros c filtered.
  assert (Hz : ki_ c = 0) by reflexivity.
  split; [ exact Hz | ].
  exact (p_or_pd_positional_law c 2 1 0 0 0 1 false UPPER Hz).
Defined.

(** The windup flag enters the value before saturation through the
    integral increment only, and monotonically. *)
Lemma unsaturated_windup_monotone (c : PIDController.t)
    (yf dyf r uff uman utrack Tx : R) (track auto_mode : bool)
    (w w' : WindupMode) :
  (forall D : R, anti_windup D w <= anti_windup D w') ->
  fst (unsaturated c yf dyf r uff uman utrack Tx track auto_mode w)
  <= fst (unsaturated c yf dyf r uff uman utrack Tx track auto_mode w').
Proof.
  intros Hw. unfold unsaturated.
  destruct auto_mode; cbn [fst]; [ | lra ].
  set (c' := tracking (p_or_pd_reset c) track utrack).
  pose proof (Hw (ki_ c' * (r - yf) * Tx)). lra.
Qed.

Lemma call_windup_monotone (c : PIDController.t)
    (r y uff uman utrack Tx : R) (track auto_mode : bool)
    (w w' : WindupMode) :
  (forall D : R, anti_windup D w <= anti_windup D w') ->
  fst (call c r y uff uman utrack Tx track auto_mode w)
  <= fst (call c r y uff uman utrack Tx track auto_mode w').
Proof.
  intros Hw. rewrite !call_output.
  apply saturate_monotone. now apply unsaturated_windup_monotone.
Qed.

Lemma anti_windup_mode_order (D : R) :
  anti_windup D UPPER <= anti_windup D BOTH /\
  anti_windup D BOTH <= anti_windup D LOWER /\
  anti_windup D UPPER <= anti_windup D NONE /\
  anti_windup D NONE <= anti_windup D LOWER.
Proof.
  rewrite !anti_windup_cases.
  destruct (Rlt_dec 0 D), (Rlt_dec D 0); split_conjs; lra.
Qed.

(** X10.  The windup flag can only move the control signal one way: for
    the same controller and the same arguments with [Tx <> 0] and a
    filter time constant that is not zero, the signal returned under
    [UPPER] is at most the one under [NONE] and the one under [BOTH],
    and each of these is at most the one under [LOWER]. *)
Theorem windup_flag_ordering :
  forall (c : PIDController.t) (r y uff uman utrack Tx : R)
         (track auto_mode : bool),
    Tx <> 0 ->
    MeasurementFilter.TfTs_ (filter_ c) <> 0 ->
    let u w := fst (call c r y uff uman utrack Tx track auto_mode w) in
    u UPPER <= u NONE /\ u NONE <= u LOWER /\
    u UPPER <= u BOTH /\ u BOTH <= u LOWER.
Proof.
  intros c r y uff uman utrack Tx track auto_mode _ _ u.
  unfold u.
  split_conjs; apply call_windup_monotone; intros D;
    apply anti_windup_mode_order.
Qed.

Lemma windup_flag_ordering_witness :
  let c := new 2 1 (1/5) 10 (-3) 3 0 1 in
  let u w := fst (call c 1 0 0 0 0 1 false true w) in
  (1 : R) <> 0 /\ (10 : R) <> 0 /\ u UPPER <= u NONE /\ u NONE <= u LOWER.
Proof.
  intros c u.
  assert (H1 : (1 : R) <> 0) by lra.
  assert (H10 : MeasurementFilter.TfTs_ (filter_ c) <> 0) by (simpl; lra).
  pose proof (windup_flag_ordering c 1 0 0 0 0 1 false true H1 H10) as H.
  cbv zeta in H. destruct H as (Ha & Hb & _).
  exact (conj H1 (conj H10 (conj Ha Hb))).
Defined.

(* ================================================================== *)
(** * The state a call leaves behind *)

(** The signal states and the filter after a call. *)
Lemma call_state_after (c : PIDController.t) (r y uff uman utrack Tx : R)
    (track auto_mode : bool) (windup : WindupMode) :
  let res := call c r y uff uman utrack Tx track auto_mode windup in
  let filtered := MeasurementFilter.call (filter_ c) y Tx in
  u_old_ (snd res) = fst res /\
  up_old_ (snd res)
  = kp_ c * (b_ (snd res) * r - yf (MeasurementFilter.output filtered)) /\
  ud_old_ (snd res) = - kd_ c * dyf (MeasurementFilter.output filtered) /\
  uff_old_ (snd res) = uff /\
  filter_ (snd res) = MeasurementFilter.state filtered.
Proof.
  cbv zeta. rewrite call_unfold. cbv zeta. cbn [fst snd].
  pose proof (unsaturated_frame c r y uff uman utrack Tx track auto_mode
                windup) as F.
  cbv zeta in F. destruct F as (Hkp & _ & Hkd & _ & _ & _ & Hf).
  cbn [set_old kp_ kd_ b_ u_old_ up_old_ ud_old_ uff_old_ filter_].
  rewrite Hkp, Hkd, Hf. split_conjs; reflexivity.
Qed.

Lemma step_filter (c : PIDController.t) (i : Tick.t) :
  filter_ (snd (step c i))
  = MeasurementFilter.state
      (MeasurementFilter.call (filter_ c) (Tick.y i) (Tick.Tx i)).
Proof. unfold step. apply call_state_after. Qed.

Lemma run_app (s s' : list Tick.t) :
  forall c : PIDController.t,
    run c (s ++ s')
    = (fst (run c s) ++ fst (run (snd (run c s)) s'),
       snd (run (snd (run c s)) s')).
Proof.
  induction s as [ | i s IH ]; intros c.
  - cbn [app run fst snd]. now destruct (run c s').
  - cbn [app]. rewrite !run_cons, IH. reflexivity.
Qed.

Lemma run_last_signal (s : list Tick.t) :
  forall (c : PIDController.t) (i : Tick.t) (d : R),
    u_old_ (snd (run c (i :: s)))
    = Terms.last_signal (fst (run c (i :: s))) d.
Proof.
  unfold Terms.last_signal.
  induction s as [ | j s IH ]; intros c i d.
  - rewrite run_cons. cbn [run fst snd last].
    unfold step. apply call_state_after.
  - rewrite run_cons. cbn [fst snd].
    rewrite (IH (snd (step c i)) j d).
    rewrite (run_cons (snd (step c i)) j s). reflexivity.
Qed.

(** X11.  The stored previous output is the saturated output: after any
    non-empty sequence of ticks whose execution periods are all
    different from zero, on a controller whose filter time constant is
    not zero, [u_old_] is the last control signal returned (the clamped
    one, in manual mode the clamped [uman]), so it lies within the
    bounds when [umin <= umax]. *)
Theorem stored_output_is_last_signal :
  forall (c : PIDController.t) (i : Tick.t) (s : list Tick.t),
    MeasurementFilter.TfTs_ (filter_ c) <> 0 ->
    Forall (fun j : Tick.t => Tick.Tx j <> 0) (i :: s) ->
    let res := run c (i :: s) in
    u_old_ (snd res) = Terms.last_signal (fst res) 0 /\
    (umin_ c <= umax_ c -> umin_ c <= u_old_ (snd res) <= umax_ c).
Proof.
  intros c i s HT Hx res.
  assert (Hl : u_old_ (snd res) = Terms.last_signal (fst res) 0)
    by apply run_last_signal.
  split; [ exact Hl | ].
  intros Hb. rewrite Hl.
  pose proof (saturation_all_ticks (i :: s) c Hb HT Hx) as Hall.
  fold res in Hall. unfold Terms.last_signal.
  assert (Hne : fst res <> []).
  { unfold res. rewrite run_cons. discriminate. }
  rewrite Forall_forall in Hall. apply Hall.
  destruct (exists_last Hne) as (l' & a & E). rewrite E.
  rewrite last_last. apply in_or_app. right. now left.
Qed.

(** A PID controller with bounds [-3] and [3]: an automatic tick with a
    large setpoint, then a manual tick. *)
Lemma stored_output_is_last_signal_witness :
  let c := new 2 1 (1/5) 10 (-3) 3 0 1 in
  let i := Tick.mk 100 0 0 0 0 1 false true NONE in
  let j := Tick.mk 0 0 0 2 0 2 false false NONE in
  MeasurementFilter.TfTs_ (filter_ c) <> 0 /\
  Forall (fun k : Tick.t => Tick.Tx k <> 0) [i; j] /\
  u_old_ (snd (run c [i; j])) = Terms.last_signal (fst (run c [i; j])) 0.
Proof.
  intros c i j.
  assert (HT : MeasurementFilter.TfTs_ (filter_ c) <> 0) by (simpl; lra).
  assert (Hx : Forall (fun k : Tick.t => Tick.Tx k <> 0) [i; j]).
  { repeat constructor; simpl; lra. }
  split; [ exact HT | ]. split; [ exact Hx | ].
  exact (proj1 (stored_output_is_last_signal c i [j] HT Hx)).
Defined.

(* ================================================================== *)
(** * The velocity form as a positional law *)

Lemma saturate_strictly_inside (u umin umax : R) :
  umin < Std.max (Std.min u umax) umin < umax ->
  Std.max (Std.min u umax) umin = u.
Proof.
  unfold Std.max, Std.min.
  destruct (Rlt_dec umax u);
    [ destruct (Rlt_dec umax umin) | destruct (Rlt_dec u umin) ]; lra.
Qed.

(** X12.  Velocity form and positional form: on an automatic tick
    without tracking of a controller with [ki <> 0], at [Tx <> 0], whose
    control signal comes out strictly inside the bounds, the part of the
    control signal beyond the stored proportional, derivative and
    feedforward terms grows by exactly the integral increment
    [anti_windup(ki*(r - yf)*Tx, windup)], plus the change of the
    derivative term scaled by [1/Tx - 1], which vanishes at [Tx = 1]. *)
Theorem velocity_form_accumulates :
  forall (c : PIDController.t) (r y uff uman utrack Tx : R)
         (windup : WindupMode),
    ki_ c <> 0 ->
    Tx <> 0 ->
    let res := call c r y uff uman utrack Tx false true windup in
    let filtered :=
      MeasurementFilter.output (MeasurementFilter.call (filter_ c) y Tx) in
    umin_ c < fst res < umax_ c ->
    Terms.accumulated (snd res)
    = Terms.accumulated c
      + anti_windup (ki_ c * (r - yf filtered) * Tx) windup
      + (- kd_ c * dyf filtered - ud_old_ c) * (/ Tx - 1).
Proof.
  intros c r y uff uman utrack Tx windup Hki _ res filtered Hin.
  unfold res in *. clear res.
  rewrite call_output in Hin.
  apply saturate_strictly_inside in Hin.
  destruct (call_state_after c r y uff uman utrack Tx false true windup)
    as (Hu & Hup & Hud & Huff & _).
  pose proof (unsaturated_b c r y uff uman utrack Tx false true windup)
    as Hb.
  destruct (call_frame c r y uff uman utrack Tx false true windup)
    as (_ & _ & _ & _ & _ & _ & _ & Hb').
  cbv zeta in Hb'. cbn [negb] in Hb'.
  destruct (Req_dec_T (ki_ c) 0) as [E | _]; [ contradiction | ].
  unfold Terms.accumulated.
  rewrite Hu, Hup, Hud, Huff, Hb', call_output, Hin.
  fold filtered.
  unfold unsaturated, p_or_pd_reset, tracking.
  cbn [ki_ set_filter].
  destruct (Req_dec_T (ki_ c) 0) as [E | _]; [ contradiction | ].
  cbn [fst kp_ ki_ kd_ b_ u_old_ up_old_ ud_old_ uff_old_ set_filter].
  unfold Rdiv. ring.
Qed.

(** A PI controller on its first tick: the control signal is [3/2]. *)
Lemma velocity_form_accumulates_witness :
  let c := new 1 (1/2) 0 10 (-10) 10 0 1 in
  let res := call c 1 0 0 0 0 1 false true NONE in
  ki_ c <> 0 /\ (1 : R) <> 0 /\ umin_ c < fst res < umax_ c /\
  Terms.accumulated (snd res)
  = Terms.accumulated c
    + anti_windup
        (ki_ c * (1 - yf (MeasurementFilter.output
                            (MeasurementFilter.call (filter_ c) 0 1))) * 1)
        NONE
    + (- kd_ c * dyf (MeasurementFilter.output
                        (MeasurementFilter.call (filter_ c) 0 1))
       - ud_old_ c) * (/ 1 - 1).
Proof.
  intros c res.
  assert (Hki : ki_ c <> 0) by (simpl; lra).
  assert (H1 : (1 : R) <> 0) by lra.
  assert (Hv : fst res = 3 / 2).
  { unfold res, c. rewrite call_output.
    unfold unsaturated, p_or_pd_reset, tracking, MeasurementFilter.call.
    cbn [new filter_ set_filter ki_ MeasurementFilter.new
         MeasurementFilter.initialized_ negb orb].
    destruct (Req_dec_T (1 / 2) 0) as [E | _]; [ lra | ].
    cbn. rewrite saturate_inside; lra. }
  assert (Hin : umin_ c < fst res < umax_ c).
  { rewrite Hv. simpl. lra. }
  split; [ exact Hki | ]. split; [ exact H1 | ]. split; [ exact Hin | ].
  exact (velocity_form_accumulates c 1 0 0 0 0 1 NONE Hki H1 Hin).
Defined.

(* ================================================================== *)
(** * Switching from manual to automatic *)

(** The value before saturation on an automatic tick without tracking of
    a controller with integral action. *)
Lemma unsaturated_incremental (c : PIDController.t)
    (yf dyf r uff uman utrack Tx : R) (windup : WindupMode) :
  ki_ c <> 0 ->
  fst (unsaturated c yf dyf r uff uman utrack Tx false true windup)
  = u_old_ c
    + (kp_ c * (b_ c * r - yf) - up_old_ c
       + anti_windup (ki_ c * (r - yf) * Tx) windup
       + (- kd_ c * dyf - ud_old_ c) / Tx
       + (uff - uff_old_ c)).
Proof.
  intros Hki. unfold unsaturated, p_or_pd_reset, tracking.
  destruct (Req_dec_T (ki_ c) 0) as [E | _]; [ contradiction | ].
  reflexivity.
Qed.

(** X13.  Bumpless transfer from manual to automatic at rest: let the
    filter of a controller with [ki <> 0] and [umin <= umax] be settled
    on [y] (cache valid, time constant not zero).  After a manual tick
    with measurement and setpoint [y], an automatic tick without tracking
    with the same measurement, setpoint and feedforward returns the very
    signal the manual tick returned, the clamped [uman], whatever the
    two execution periods, the windup flags and the new [uman] and
    [utrack] are. *)
Theorem bumpless_manual_to_auto :
  forall (c : PIDController.t) (y uff uman uman' utrack utrack' Tx Tx' : R)
         (track : bool) (windup windup' : WindupMode),
    ki_ c <> 0 ->
    Tx' <> 0 ->
    MeasurementFilter.TfTs_ (filter_ c) <> 0 ->
    umin_ c <= umax_ c ->
    MeasurementFilter.cache_valid (filter_ c) ->
    MeasurementFilter.yf_ (filter_ c) = y ->
    MeasurementFilter.dyf_ (filter_ c) = 0 ->
    let m := call c y y uff uman utrack Tx track false windup in
    let a := call (snd m) y y uff uman' utrack' Tx' false true windup' in
    fst a = fst m /\ fst m = clamp uman (umin_ c) (umax_ c).
Proof.
  intros c y uff uman uman' utrack utrack' Tx Tx' track windup windup'
         Hki _ _ Hb Hc Hy Hd m a.
  (* the manual tick *)
  assert (Hm : fst m = Std.max (Std.min uman (umax_ c)) (umin_ c)).
  { unfold m. rewrite call_output. reflexivity. }
  destruct (call_state_after c y y uff uman utrack Tx track false windup)
    as (Su & Sup & Sud & Suff & Sf).
  destruct (call_frame c y y uff uman utrack Tx track false windup)
    as (Fkp & Fki & Fkd & Fmin & Fmax & _ & _ & Fb).
  fold m in Su, Sup, Sud, Suff, Sf, Fkp, Fki, Fkd, Fmin, Fmax, Fb.
  cbv zeta in Fb.
  pose proof (FilterRunFacts.call_settled (filter_ c) y Tx Hc Hy Hd) as O1.
  rewrite O1 in Sup, Sud. cbn [yf dyf] in Sup, Sud.
  (* the filter stays settled *)
  destruct (FilterRunFacts.call_state_eq (filter_ c) y Tx) as [Ey Ed].
  rewrite O1 in Ey, Ed. cbn [yf dyf] in Ey, Ed.
  assert (Hc' : MeasurementFilter.cache_valid (filter_ (snd m))).
  { rewrite Sf. now apply FilterRunFacts.call_cache_valid. }
  assert (O2 : MeasurementFilter.output
                 (MeasurementFilter.call (filter_ (snd m)) y Tx')
               = {| yf := y; dyf := 0 |}).
  { apply FilterRunFacts.call_settled; [ exact Hc' | | ];
      rewrite Sf; assumption. }
  (* the automatic tick *)
  split; [ | rewrite Hm; apply saturate_clamp ].
  unfold a. rewrite call_output, O2. cbn [yf dyf].
  rewrite unsaturated_incremental by (cbn [ki_ set_filter]; congruence).
  cbn [kp_ ki_ kd_ b_ u_old_ up_old_ ud_old_ uff_old_ set_filter].
  rewrite Su, Sup, Sud, Suff, Fkp, Fkd, Fmin, Fmax, Fb.
  replace (ki_ (snd m) * (y - y) * Tx') with 0 by ring.
  rewrite anti_windup_zero.
  replace (fst m
           + (kp_ c * (b_ c * y - y) - kp_ c * (b_ c * y - y) + 0
              + (- kd_ c * 0 - - kd_ c * 0) / Tx' + (uff - uff)))
    with (fst m) by (unfold Rdiv; ring).
  apply saturate_inside. rewrite Hm. now apply saturate_bounds.
Qed.

(** A freshly constructed PI controller (filter at rest on [0]): manual
    with [uman = 4], then automatic. *)
Lemma bumpless_manual_to_auto_witness :
  let c := new 1 (1/2) (1/5) 10 (-10) 10 0 (1/2) in
  let m := call c 0 0 1 4 0 1 false false NONE in
  let a := call (snd m) 0 0 1 0 0 2 false true NONE in
  ki_ c <> 0 /\ (2 : R) <> 0 /\ umin_ c <= umax_ c /\
  fst a = fst m /\ fst m = clamp 4 (-10) 10.
Proof.
  intros c m a.
  assert (Hki : ki_ c <> 0) by (simpl; lra).
  assert (H2 : (2 : R) <> 0) by lra.
  assert (HT : MeasurementFilter.TfTs_ (filter_ c) <> 0) by (simpl; lra).
  assert (Hb : umin_ c <= umax_ c) by (simpl; lra).
  assert (Hc : MeasurementFilter.cache_valid (filter_ c))
    by apply FilterRunFacts.new_cache_valid.
  split; [ exact Hki | ]. split; [ exact H2 | ]. split; [ exact Hb | ].
  exact (bumpless_manual_to_auto c 0 1 4 0 0 0 1 2 false NONE NONE
           Hki H2 HT Hb Hc eq_refl eq_refl).
Defined.

(* ================================================================== *)
(** * The setpoint weight and the filter along a run *)

Lemma step_b (c : PIDController.t) (i : Tick.t) :
  b_ (snd (step c i))
  = if Tick.auto_mode i
    then (if Req_dec_T (ki_ c) 0 then 1 else b_ c)
    else b_ c.
Proof. unfold step. apply call_frame. Qed.

Lemma run_b (s : list Tick.t) :
  forall c : PIDController.t,
    b_ (snd (run c s))
    = if Req_dec_T (ki_ c) 0
      then (if existsb Tick.auto_mode s then 1 else b_ c)
      else b_ c.
Proof.
  induction s as [ | i s IH ]; intros c.
  - cbn. now destruct (Req_dec_T (ki_ c) 0).
  - rewrite run_cons. cbn [snd existsb].
    rewrite IH, step_b.
    destruct (step_same_config c i) as (_ & Hki & _). rewrite Hki.
    destruct (Req_dec_T (ki_ c) 0), (Tick.auto_mode i),
      (existsb Tick.auto_mode s); reflexivity.
Qed.

(** X14.  The setpoint weight along a run: a controller with [ki <> 0]
    keeps its setpoint weight through every sequence of ticks; a
    controller with [ki == 0] keeps it as long as every tick is manual
    and holds [1] from the first automatic tick on.  [reset()] does not
    bring the configured weight back. *)
Theorem setpoint_weight_after_run :
  forall (c : PIDController.t) (s : list Tick.t),
    let b' := if Req_dec_T (ki_ c) 0
              then (if existsb Tick.auto_mode s then 1 else b_ c)
              else b_ c in
    b_ (snd (run c s)) = b' /\ b_ (reset (snd (run c s))) = b'.
Proof.
  intros c s b'. split; [ apply run_b | ].
  unfold reset. cbn [b_ set_filter set_old]. apply run_b.
Qed.

Lemma run_filter_cache (s : list Tick.t) :
  forall c : PIDController.t,
    MeasurementFilter.cache_valid (filter_ c) ->
    MeasurementFilter.cache_valid (filter_ (snd (run c s))).
Proof.
  induction s as [ | i s IH ]; intros c Hc.
  - exact Hc.
  - rewrite run_cons. cbn [snd]. apply IH. rewrite step_filter.
    now apply FilterRunFacts.call_cache_valid.
Qed.

(** X15.  The controller keeps its filter's cache valid: after any
    sequence of ticks on a constructed controller, in whatever modes,
    the filter is initialized, its [Tx_old] is the execution period of
    the last tick and its coefficients are [zoh_Fy(TfTs, Tx)] for that
    period and the constructor's time constant. *)
Theorem controller_filter_cache :
  forall (kp ki kd TfTs umin umax u0 b : R) (s : list Tick.t)
         (i : Tick.t),
    let c := snd (run (new kp ki kd TfTs umin umax u0 b) (s ++ [i])) in
    MeasurementFilter.initialized_ (filter_ c) = true /\
    MeasurementFilter.Tx_old_ (filter_ c) = Some (Tick.Tx i) /\
    MeasurementFilter.params (filter_ c) = zoh_Fy TfTs (Tick.Tx i).
Proof.
  intros kp ki kd TfTs umin umax u0 b s i c.
  set (c0 := new kp ki kd TfTs umin umax u0 b) in *.
  assert (Hc : MeasurementFilter.cache_valid (filter_ (snd (run c0 s)))).
  { apply run_filter_cache. apply FilterRunFacts.new_cache_valid. }
  destruct (run_same_config s c0) as (_ & _ & _ & _ & _ & _ & HT & _).
  assert (Ec : c = snd (step (snd (run c0 s)) i)).
  { unfold c. rewrite run_app. cbn [snd].
    rewrite run_cons. reflexivity. }
  rewrite Ec, step_filter.
  destruct (FilterFacts.call_post (filter_ (snd (run c0 s)))
              (Tick.y i) (Tick.Tx i)) as (_ & Hi & Ho & _).
  split; [ exact Hi | ]. split; [ exact Ho | ].
  rewrite (FilterFacts.call_params _ (Tick.y i) (Tick.Tx i) Hc), HT.
  reflexivity.
Qed.

(* ================================================================== *)
(** * Ticks that erase the signal history *)

(** On a manual tick, on an automatic tick with tracking and on any
    tick of a controller with [ki == 0], what the four signal states
    held before the call is immaterial. *)
Lemma call_forgets (c : PIDController.t) (u1 u2 u3 u4 : R)
    (r y uff uman utrack Tx : R) (track auto_mode : bool)
    (windup : WindupMode) :
  auto_mode = false \/ track = true \/ ki_ c = 0 ->
  call (set_old c u1 u2 u3 u4) r y uff uman utrack Tx track auto_mode windup
  = call c r y uff uman utrack Tx track auto_mode windup.
Proof.
  intros Hmode.
  unfold call, unsaturated, p_or_pd_reset, tracking.
  cbn [filter_ set_old set_filter ki_].
  destruct auto_mode; [ | reflexivity ].
  destruct (Req_dec_T (ki_ c) 0) as [Ez | Enz].
  - destruct track; reflexivity.
  - destruct track; [ reflexivity | ].
    destruct Hmode as [H | [H | H]];
      [ discriminate H | discriminate H | contradiction ].
Qed.

Lemma call_resynchronises (c d : PIDController.t)
    (r y uff uman utrack Tx : R) (track auto_mode : bool)
    (windup : WindupMode) :
  Terms.same_setup c d ->
  auto_mode = false \/ track = true \/ ki_ c = 0 ->
  fst (call c r y uff uman utrack Tx track auto_mode windup)
  = fst (call d r y uff uman utrack Tx track auto_mode windup) /\
  alike (snd (call c r y uff uman utrack Tx track auto_mode windup))
        (snd (call d r y uff uman utrack Tx track auto_mode windup)).
Proof.
  intros (Hkp & Hki & Hkd & Hmin & Hmax & Hu0 & Hb & Hf) Hmode.
  rewrite <- (call_forgets c (u_old_ d) (up_old_ d) (ud_old_ d)
                (uff_old_ d) r y uff uman utrack Tx track auto_mode windup
                Hmode).
  apply call_alike_controllers.
  unfold alike.
  cbn [set_old kp_ ki_ kd_ umin_ umax_ u0_ b_ u_old_ up_old_ ud_old_
       uff_old_ filter_].
  split_conjs; try assumption; try reflexivity.
  intros _. split; [ exact Hb | reflexivity ].
Qed.

(** X16.  Ticks that erase the signal history: two controllers with the
    same parameters and like filters, whose four stored signal states
    differ at will, return the same control signals from a manual tick
    on, from an automatic tick with tracking on, and, when [ki == 0],
    from any tick on: on that tick and on every tick after it. *)
Theorem history_erasing_ticks :
  forall (c d : PIDController.t) (i : Tick.t) (s : list Tick.t),
    Terms.same_setup c d ->
    Tick.auto_mode i = false \/ Tick.track i = true \/ ki_ c = 0 ->
    fst (run c (i :: s)) = fst (run d (i :: s)).
Proof.
  intros c d i s Hs Hmode.
  rewrite !run_cons. cbn [fst].
  destruct (call_resynchronises c d (Tick.r i) (Tick.y i) (Tick.uff i)
              (Tick.uman i) (Tick.utrack i) (Tick.Tx i) (Tick.track i)
              (Tick.auto_mode i) (Tick.windup i) Hs Hmode) as [Hu Ha].
  fold (step c i) in Hu, Ha. fold (step d i) in Hu, Ha.
  rewrite Hu. f_equal. now apply run_alike.
Qed.

(** Two PI controllers that differ in all four signal states, on a manual
    tick followed by an automatic one. *)
Lemma history_erasing_ticks_witness :
  let f := MeasurementFilter.new 10 in
  let c := PIDController.mk 1 (1/2) 0 (-10) 10 0 1 5 6 7 8 f in
  let d := PIDController.mk 1 (1/2) 0 (-10) 10 0 1 0 0 0 0 f in
  let i := Tick.mk 1 0 0 2 0 1 false false NONE in
  let j := Tick.mk 1 0 0 0 0 1 false true NONE in
  Terms.same_setup c d /\
  fst (run c [i; j]) = fst (run d [i; j]).
Proof.
  intros f c d i j.
  assert (Hs : Terms.same_setup c d).
  { unfold Terms.same_setup. cbn. split_conjs; try reflexivity.
    apply FilterFacts.alike_refl. }
  split; [ exact Hs | ].
  exact (history_erasing_ticks c d i [j] Hs (or_introl eq_refl)).
Defined.

(* ================================================================== *)
(** * The test harness: parse_bool *)

Module HarnessFacts.

Import Ascii String Harness.

(** Which bytes [tolower] sends to a given lower-case letter of the word
    [true], as a boolean table over the 256 bytes. *)
Lemma tolower_table (c : ascii) :
  Ascii.eqb (tolower c) "t" = (Ascii.eqb c "t" || Ascii.eqb c "T")%bool /\
  Ascii.eqb (tolower c) "r" = (Ascii.eqb c "r" || Ascii.eqb c "R")%bool /\
  Ascii.eqb (tolower c) "u" = (Ascii.eqb c "u" || Ascii.eqb c "U")%bool /\
  Ascii.eqb (tolower c) "e" = (Ascii.eqb c "e" || Ascii.eqb c "E")%bool.
Proof.
  destruct c as [[] [] [] [] [] [] [] []]; vm_compute; auto.
Qed.

Lemma tolower_letter (l u c : ascii) :
  (l, u) = ("t", "T")%char \/ (l, u) = ("r", "R")%char \/
  (l, u) = ("u", "U")%char \/ (l, u) = ("e", "E")%char ->
  tolower c = l <-> either_case l u c.
Proof.
  unfold either_case.
  destruct (tolower_table c) as (Ht & Hr & Hu & He).
  intros [E | [E | [E | E]]]; inversion E; subst l u; clear E;
    rewrite <- !Ascii.eqb_eq, <- orb_true_iff;
    [ rewrite Ht | rewrite Hr | rewrite Hu | rewrite He ]; reflexivity.
Qed.

(** X17.  [parse_bool] accepts exactly the word "true" in any mix of
    upper and lower case: it returns [true] if and only if the string has
    four characters, a [t] or [T], an [r] or [R], a [u] or [U] and an
    [e] or [E], in this order.  Every other string, the empty string,
    "1", "yes" or a padded " true" among them, is read as [false]. *)
Theorem parse_bool_accepts :
  forall str : string,
    parse_bool str = true <->
    exists c1 c2 c3 c4 : ascii,
      str = String c1 (String c2 (String c3 (String c4 EmptyString))) /\
      either_case "t" "T" c1 /\ either_case "r" "R" c2 /\
      either_case "u" "U" c3 /\ either_case "e" "E" c4.
Proof.
  intros str. unfold parse_bool. cbv zeta. rewrite String.eqb_eq. split.
  - intros H.
    destruct str as [ | c1 [ | c2 [ | c3 [ | c4 [ | c5 rest ] ] ] ] ];
      cbn [transform] in H; try discriminate H.
    injection H as H1 H2 H3 H4.
    exists c1, c2, c3, c4. split; [ reflexivity | ].
    split; [ apply tolower_letter; auto | ].
    split; [ apply tolower_letter; auto | ].
    split; apply tolower_letter; auto 6.
  - intros (c1 & c2 & c3 & c4 & E & H1 & H2 & H3 & H4). subst str.
    cbn [transform].
    apply tolower_letter in H1; [ | auto ].
    apply tolower_letter in H2; [ | auto ].
    apply tolower_letter in H3; [ | auto 6 ].
    apply tolower_letter in H4; [ | auto 6 ].
    now rewrite H1, H2, H3, H4.
Qed.

End HarnessFacts.

(* ================================================================== *)
(** * The filter inside the controller, and after reset *)

Lemma run_filter_decoupled (s : list Tick.t) :
  forall c : PIDController.t,
    filter_ (snd (run c s))
    = snd (fst (FilterRun.run (filter_ c)
                  (map (fun i => (Tick.y i, Tick.Tx i)) s))).
Proof.
  induction s as [ | i s IH ]; intros c.
  - reflexivity.
  - rewrite run_cons. cbn [snd map].
    rewrite FilterRunFacts.run_step. cbn [fst snd].
    rewrite IH, step_filter. reflexivity.
Qed.

(** X18.  The filter runs on its own: after any sequence of ticks, the
    controller's filter is in the state that the same sequence of
    measurements and execution periods leaves a stand-alone filter in;
    the modes, setpoints, gains, bounds and manual or tracking signals
    of the ticks have no influence on it, and it advances on manual
    ticks as on automatic ones. *)
Theorem controller_filter_decoupled :
  forall (c : PIDController.t) (s : list Tick.t),
    filter_ (snd (run c s))
    = snd (fst (FilterRun.run (filter_ c)
                  (map (fun i => (Tick.y i, Tick.Tx i)) s))).
Proof. intros c s. apply run_filter_decoupled. Qed.

Lemma filter_run_alike (l : list (R * R)) :
  forall f g : MeasurementFilter.t,
    MeasurementFilter.alike f g ->
    fst (fst (FilterRun.run f l)) = fst (fst (FilterRun.run g l)).
Proof.
  induction l as [ | [y Tx] l IH ]; intros f g H.
  - reflexivity.
  - rewrite !FilterRunFacts.run_step. cbn [fst].
    destruct (FilterFacts.call_alike f g y Tx H) as [Ho Ha].
    rewrite Ho. f_equal. now apply IH.
Qed.

(** X19.  A filter after [reset()] answers like a new one: on every
    sequence of calls, a filter that has been reset returns the outputs
    that a freshly constructed filter with the same time constant
    returns, although [reset()] leaves the old coefficients in place. *)
Theorem filter_reset_is_fresh :
  forall (f : MeasurementFilter.t) (l : list (R * R)),
    fst (fst (FilterRun.run (MeasurementFilter.reset f) l))
    = fst (fst (FilterRun.run
                  (MeasurementFilter.new (MeasurementFilter.TfTs_ f)) l))
    /\
    MeasurementFilter.params (MeasurementFilter.reset f)
    = MeasurementFilter.params f.
Proof.
  intros f l. split; [ | reflexivity ].
  apply filter_run_alike.
  unfold MeasurementFilter.alike. cbn.
  split_conjs; try reflexivity. intros E; discriminate E.
Qed.

(* ================================================================== *)
(** * Two consecutive ticks *)

(** X20.  The incremental law across two ticks: after any tick of a
    controller with [ki <> 0], an automatic tick without tracking at
    [Tx' <> 0] returns the clamp of the signal the first tick returned
    plus the change of the proportional term [kp*(b*r - yf)], the
    integral increment [anti_windup(ki*(r' - yf')*Tx', windup')], the
    change of the derivative term [-kd*dyf] divided by [Tx'], and the
    change of the feedforward signal. *)
Theorem incremental_law :
  forall (c : PIDController.t)
         (r y uff uman utrack Tx : R) (track auto_mode : bool)
         (windup : WindupMode)
         (r' y' uff' uman' utrack' Tx' : R) (windup' : WindupMode),
    ki_ c <> 0 ->
    Tx' <> 0 ->
    let m := call c r y uff uman utrack Tx track auto_mode windup in
    let a := call (snd m) r' y' uff' uman' utrack' Tx' false true windup' in
    let f1 := MeasurementFilter.call (filter_ c) y Tx in
    let f2 := MeasurementFilter.call (MeasurementFilter.state f1) y' Tx' in
    let yf1 := yf (MeasurementFilter.output f1) in
    let dyf1 := dyf (MeasurementFilter.output f1) in
    let yf2 := yf (MeasurementFilter.output f2) in
    let dyf2 := dyf (MeasurementFilter.output f2) in
    fst a
    = clamp (fst m
             + (kp_ c * (b_ c * r' - yf2) - kp_ c * (b_ c * r - yf1))
             + anti_windup (ki_ c * (r' - yf2) * Tx') windup'
             + (- kd_ c * dyf2 - - kd_ c * dyf1) / Tx'
             + (uff' - uff))
        (umin_ c) (umax_ c).
Proof.
  intros c r y uff uman utrack Tx track auto_mode windup
         r' y' uff' uman' utrack' Tx' windup' Hki _
         m a f1 f2 yf1 dyf1 yf2 dyf2.
  destruct (call_state_after c r y uff uman utrack Tx track auto_mode
              windup) as (Su & Sup & Sud & Suff & Sf).
  destruct (call_frame c r y uff uman utrack Tx track auto_mode windup)
    as (Fkp & Fki & Fkd & Fmin & Fmax & _ & _ & Fb).
  fold m in Su, Sup, Sud, Suff, Sf, Fkp, Fki, Fkd, Fmin, Fmax, Fb.
  fold f1 in Sup, Sud, Sf. fold yf1 in Sup. fold dyf1 in Sud.
  cbv zeta in Fb.
  assert (Eb : b_ (snd m) = b_ c).
  { rewrite Fb. destruct auto_mode; [ | reflexivity ].
    destruct (Req_dec_T (ki_ c) 0); [ contradiction | reflexivity ]. }
  unfold a. rewrite call_output, Sf. fold f2. fold yf2. fold dyf2.
  rewrite unsaturated_incremental by (cbn [ki_ set_filter]; congruence).
  cbn [kp_ ki_ kd_ b_ u_old_ up_old_ ud_old_ uff_old_ set_filter].
  rewrite Su, Sup, Sud, Suff, Eb, Fkp, Fki, Fkd, Fmin, Fmax.
  rewrite saturate_clamp. f_equal. unfold Rdiv. ring.
Qed.

(** A PI controller: a manual tick, then an automatic tick with a new
    setpoint. *)
Lemma incremental_law_witness :
  let c := new 1 (1/2) 0 10 (-10) 10 0 1 in
  let m := call c 0 0 0 2 0 1 false false NONE in
  let a := call (snd m) 1 0 0 0 0 1 false true NONE in
  let f1 := MeasurementFilter.call (filter_ c) 0 1 in
  let f2 := MeasurementFilter.call (MeasurementFilter.state f1) 0 1 in
  ki_ c <> 0 /\ (1 : R) <> 0 /\
  fst a
  = clamp (fst m
           + (kp_ c * (b_ c * 1 - yf (MeasurementFilter.output f2))
              - kp_ c * (b_ c * 0 - yf (MeasurementFilter.output f1)))
           + anti_windup
               (ki_ c * (1 - yf (MeasurementFilter.output f2)) * 1) NONE
           + (- kd_ c * dyf (MeasurementFilter.output f2)
              - - kd_ c * dyf (MeasurementFilter.output f1)) / 1
           + (0 - 0))
      (umin_ c) (umax_ c).
Proof.
  intros c m a f1 f2.
  assert (Hki : ki_ c <> 0) by (simpl; lra).
  assert (H1 : (1 : R) <> 0) by lra.
  split; [ exact Hki | ]. split; [ exact H1 | ].
  exact (incremental_law c 0 0 0 2 0 1 false false NONE
           1 0 0 0 0 1 NONE Hki H1).
Defined.

(* ================================================================== *)
(** * Monotonicity in the setpoint *)

Lemma anti_windup_monotone (w : WindupMode) (D D' : R) :
  D <= D' -> anti_windup D w <= anti_windup D' w.
Proof.
  intros Hle. rewrite !anti_windup_cases.
  destruct w; try lra.
  - destruct (Rlt_dec 0 D), (Rlt_dec 0 D'); lra.
  - destruct (Rlt_dec D 0), (Rlt_dec D' 0); lra.
Qed.

Lemma unsaturated_setpoint_monotone (c : PIDController.t)
    (yf dyf r r' uff uman utrack Tx : R) (track auto_mode : bool)
    (windup : WindupMode) :
  0 <= kp_ c -> 0 <= b_ c -> 0 <= ki_ c -> 0 < Tx -> r <= r' ->
  fst (unsaturated c yf dyf r uff uman utrack Tx track auto_mode windup)
  <= fst (unsaturated c yf dyf r' uff uman utrack Tx track auto_mode
            windup).
Proof.
  intros Hkp Hb Hki HTx Hr. unfold unsaturated.
  destruct auto_mode; cbn [fst]; [ | lra ].
  set (c' := tracking (p_or_pd_reset c) track utrack).
  assert (Ekp : kp_ c' = kp_ c /\ ki_ c' = ki_ c /\ 0 <= b_ c').
  { unfold c', tracking, p_or_pd_reset.
    destruct track, (Req_dec_T (ki_ c) 0); cbn; split_conjs;
      try reflexivity; lra. }
  destruct Ekp as (Ekp & Eki & Hb').
  rewrite Ekp, Eki.
  assert (Hp : kp_ c * (b_ c' * r - yf) <= kp_ c * (b_ c' * r' - yf)).
  { apply Rmult_le_compat_l; [ exact Hkp | ].
    assert (b_ c' * r <= b_ c' * r')
      by (apply Rmult_le_compat_l; assumption).
    lra. }
  assert (Hi : anti_windup (ki_ c * (r - yf) * Tx) windup
               <= anti_windup (ki_ c * (r' - yf) * Tx) windup).
  { apply anti_windup_monotone.
    apply Rmult_le_compat_r; [ lra | ].
    apply Rmult_le_compat_l; [ exact Hki | lra ]. }
  lra.
Qed.

(** X21.  Monotone in the setpoint: for a controller with non-negative
    [kp], [ki] and setpoint weight and a filter time constant that is
    not zero, at [Tx > 0], raising the setpoint never lowers the control
    signal: for the same state and the same other arguments, [r <= r']
    gives [u <= u'], in every mode and under every windup flag. *)
Theorem setpoint_monotone :
  forall (c : PIDController.t) (r r' y uff uman utrack Tx : R)
         (track auto_mode : bool) (windup : WindupMode),
    0 <= kp_ c -> 0 <= b_ c -> 0 <= ki_ c -> 0 < Tx ->
    MeasurementFilter.TfTs_ (filter_ c) <> 0 ->
    r <= r' ->
    fst (call c r y uff uman utrack Tx track auto_mode windup)
    <= fst (call c r' y uff uman utrack Tx track auto_mode windup).
Proof.
  intros c r r' y uff uman utrack Tx track auto_mode windup
         Hkp Hb Hki HTx _ Hr.
  rewrite !call_output. apply saturate_monotone.
  now apply unsaturated_setpoint_monotone.
Qed.

Lemma setpoint_monotone_witness :
  let c := new 2 1 (1/5) 10 (-3) 3 0 (1/2) in
  0 <= kp_ c /\ 0 <= b_ c /\ 0 <= ki_ c /\ (0 < 1) /\
  MeasurementFilter.TfTs_ (filter_ c) <> 0 /\ (1 <= 2) /\
  fst (call c 1 0 0 0 0 1 false true LOWER)
  <= fst (call c 2 0 0 0 0 1 false true LOWER).
Proof.
  intros c.
  assert (Hkp : 0 <= kp_ c) by (simpl; lra).
  assert (Hb : 0 <= b_ c) by (simpl; lra).
  assert (Hki : 0 <= ki_ c) by (simpl; lra).
  assert (HTx : 0 < 1) by lra.
  assert (HT : MeasurementFilter.TfTs_ (filter_ c) <> 0) by (simpl; lra).
  assert (Hr : 1 <= 2) by lra.
  split_conjs; try assumption.
  exact (setpoint_monotone c 1 2 0 0 0 0 1 false true LOWER
           Hkp Hb Hki HTx HT Hr).
Defined.

(* ================================================================== *)
(** * Zero divisors on binary64 *)

Module IeeeFacts.

Import Floats.
Local Open Scope float_scope.

(** Settles an equation between floats on their specifications, by cases
    on the floats that are not given. *)
Ltac by_spec :=
  intros; apply Prim2SF_inj;
  rewrite ?add_spec, ?sub_spec, ?mul_spec, ?div_spec, ?opp_spec,
          ?add_spec, ?sub_spec, ?mul_spec, ?div_spec, ?opp_spec,
          ?add_spec, ?sub_spec, ?mul_spec, ?div_spec, ?opp_spec;
  repeat match goal with
         | |- context [Prim2SF ?x] =>
             is_var x; destruct (Prim2SF x) as [ [] | [] | | [] ? ? ]
         end;
  reflexivity.

Ltac by_spec_bool lemma :=
  intros; rewrite lemma;
  repeat match goal with
         | |- context [Prim2SF ?x] =>
             is_var x; destruct (Prim2SF x) as [ [] | [] | | [] ? ? ]
         end;
  reflexivity.

(** NaN is absorbing for the four operations. *)
Lemma add_nan_l (x : float) : nan + x = nan.
Proof. by_spec. Qed.

Lemma add_nan_r (x : float) : x + nan = nan.
Proof. by_spec. Qed.

Lemma sub_nan_l (x : float) : nan - x = nan.
Proof. by_spec. Qed.

Lemma sub_nan_r (x : float) : x - nan = nan.
Proof. by_spec. Qed.

Lemma mul_nan_l (x : float) : nan * x = nan.
Proof. by_spec. Qed.

Lemma mul_nan_r (x : float) : x * nan = nan.
Proof. by_spec. Qed.

Lemma div_nan_l (x : float) : nan / x = nan.
Proof. by_spec. Qed.

(** Every comparison with NaN is false. *)
Lemma ltb_nan_l (x : float) : (nan <? x) = false.
Proof. by_spec_bool ltb_spec. Qed.

Lemma ltb_nan_r (x : float) : (x <? nan) = false.
Proof. by_spec_bool ltb_spec. Qed.

(** [Dud] of a controller with [kd = 0] and [ud_old = 0] at [Tx = 0]:
    [-0.0 * dyf] is a zero or NaN, and a zero over zero is NaN. *)
Lemma zero_over_zero (d : float) : (-0 * d - 0) / 0 = nan.
Proof. by_spec. Qed.

(** The first term of [yf] at [TfTs = 0], where [h1] is infinite: for
    every value [e] of [exp], [a11 = e + inf*e] is infinite or NaN, and
    its product with zero is NaN. *)
Lemma infinite_times_zero (e : float) : (e + infinity * e) * 0 = nan.
Proof. by_spec. Qed.

Create Rewrite HintDb ieee_nan.

#[export] Hint Rewrite
  zero_over_zero infinite_times_zero
  add_nan_l add_nan_r sub_nan_l sub_nan_r mul_nan_l mul_nan_r div_nan_l
  ltb_nan_l ltb_nan_r : ieee_nan.



(** A manual tick on binary64: the manual signal comes back as it is,
    whatever function stands for [exp]. *)
Example manual_tick_binary64 (exp : float -> float) :
  fst (Ieee.PIDController.call exp
         (Ieee.PIDController.new 1 0.5 0 10 (-10) 10 0 1)
         1 0 0 2 0 1 false false NONE) = 2.
Proof. reflexivity. Qed.


End IeeeFacts.
